(** * ultimate-system-monitor: a shallow embedding of [monitor.py]

    The development follows the layout of the Python source: the text
    helpers and the regular-expression engine first, then the
    configuration model ([DEFAULT_CONFIG], [load_config]), the rendering
    engine ([get_size], [draw_bar], [visible_len], [draw_row]) and
    finally the pieces of the sampling loop (network rates, [get_ping],
    [log_metrics]).  [monitorV1.py] is the same design; the one function
    whose body differs ([draw_row], which prints without the left margin)
    is embedded a second time in [MonitorV1].

    Conventions.
    - A Python [str] is a sequence of Unicode code points, [list N]:
      [len] counts code points, so the box glyphs count for one.
    - A Python [int] is an exact integer [Z] and a finite [float] is the
      rational [Q] it denotes.  Where the rounding of a float operation
      decides a discrete result (the unit and the digits of a byte
      count, the filled glyphs of a gauge) the operation is rounded to
      binary64 by [float_round]; NaN and the infinities have no
      counterpart, so the magnitudes stay below the overflow of a
      double.
    - Code that can raise runs in the error monad [res]; [try]/[except]
      is [try_except]. *)

From Stdlib Require Import List String Ascii NArith ZArith QArith Qround Qabs.
From Stdlib Require Import Qpower Lia Bool DecimalString.
Import ListNotations.

Set Implicit Arguments.

(* ================================================================== *)
(** ** Python strings *)

Module Py.

Definition str := list N.

(** An ASCII literal of the source as a [str]. *)
Definition lit (s : string) : str :=
  map N_of_ascii (list_ascii_of_string s).

(** [c * n] for a one-character string [c]: empty when [n <= 0]. *)
Definition times (c : N) (n : Z) : str := repeat c (Z.to_nat n).

Definition len (s : str) : Z := Z.of_nat (List.length s).

End Py.

Import Py.

(* ================================================================== *)
(** ** Exceptions *)

Inductive exn :=
| KeyError
| TypeError
| ValueError
| ZeroDivisionError
| OSError
| KeyboardInterrupt.

Inductive res (A : Type) : Type :=
| Ok (a : A)
| Raise (e : exn).

Arguments Ok {A} a.
Arguments Raise {A} e.

Definition bind {A B : Type} (m : res A) (k : A -> res B) : res B :=
  match m with
  | Ok a => k a
  | Raise e => Raise e
  end.

(** A bare [except:] clause: every exception reaches the handler. *)
Definition try_except {A : Type} (body : res A) (handler : exn -> res A)
  : res A :=
  match body with
  | Ok a => Ok a
  | Raise e => handler e
  end.

Declare Scope res_scope.
Delimit Scope res_scope with res.
Notation "x <- m ;; k" := (bind m (fun x => k))
  (at level 61, m at next level, right associativity) : res_scope.
Notation "m ;;; k" := (bind m (fun _ => k))
  (at level 61, right associativity) : res_scope.
Open Scope res_scope.

(* ================================================================== *)
(** ** The regular-expression engine

    [visible_len] compiles one pattern and calls [sub].  The pattern
    language below has what that pattern uses: literals, character
    classes, greedy repetition of a class, concatenation and ordered
    alternation.  [bt] is the backtracking matcher of Python's [re]:
    alternatives are tried left to right, a star takes as many
    characters as it can and gives them back one at a time. *)

Module Re.

Definition class := list (N * N).

Inductive regex :=
| Lit (c : N)
| Cls (cs : class)
| StarCls (cs : class)
| Cat (r1 r2 : regex)
| Alt (r1 r2 : regex).

Definition in_class (cs : class) (c : N) : bool :=
  existsb (fun r => (fst r <=? c)%N && (c <=? snd r)%N) cs.

(** The language of a pattern, independently of any matching strategy. *)
Inductive matches : regex -> str -> Prop :=
| MLit c : matches (Lit c) [c]
| MCls cs c : in_class cs c = true -> matches (Cls cs) [c]
| MStarNil cs : matches (StarCls cs) []
| MStarCons cs c u :
    in_class cs c = true -> matches (StarCls cs) u ->
    matches (StarCls cs) (c :: u)
| MCat r1 r2 u1 u2 :
    matches r1 u1 -> matches r2 u2 -> matches (Cat r1 r2) (u1 ++ u2)
| MAltL r1 r2 u : matches r1 u -> matches (Alt r1 r2) u
| MAltR r1 r2 u : matches r2 u -> matches (Alt r1 r2) u.

Section Backtracking.

Variable A : Type.

Fixpoint star (cs : class) (s : str) (k : str -> option A) : option A :=
  match s with
  | c :: s' =>
      if in_class cs c then
        match star cs s' k with
        | Some a => Some a
        | None => k s
        end
      else k s
  | [] => k s
  end.

Fixpoint bt (r : regex) (s : str) (k : str -> option A) : option A :=
  match r with
  | Lit c =>
      match s with
      | c' :: s' => if (c' =? c)%N then k s' else None
      | [] => None
      end
  | Cls cs =>
      match s with
      | c' :: s' => if in_class cs c' then k s' else None
      | [] => None
      end
  | StarCls cs => star cs s k
  | Cat r1 r2 => bt r1 s (fun s' => bt r2 s' k)
  | Alt r1 r2 =>
      match bt r1 s k with
      | Some a => Some a
      | None => bt r2 s k
      end
  end.

End Backtracking.

(** [pattern.match] anchored at the head of [s]: the number of
    characters of the match. *)
Definition match_len (r : regex) (s : str) : option nat :=
  bt r s (fun rest => Some (List.length s - List.length rest)%nat).

(** [pattern.sub('', s)].  The scan goes left to right; [skip] counts the
    characters of the current match that are still to be dropped.  Where
    no match starts, the character is copied and the scan moves on by
    one. *)
Fixpoint sub_go (r : regex) (skip : nat) (s : str) : str :=
  match s with
  | [] => []
  | c :: s' =>
      match skip with
      | S n => sub_go r n s'
      | O =>
          match match_len r s with
          | Some (S n) => sub_go r n s'
          | _ => c :: sub_go r O s'
          end
      end
  end.

Definition sub_empty (r : regex) (s : str) : str := sub_go r 0 s.

End Re.

Import Re.

(* ================================================================== *)
(** ** Module constants of [monitor.py] *)

Definition W : Z := 66.
Definition PADDING_TOP : Z := 2.
Definition PADDING_LEFT : Z := 4.
Definition PADDING_BOTTOM : Z := 2.

Definition ESC : N := 27.

(** The [COLORS] table: name, control sequence. *)
Definition COLORS : list (string * str) :=
  [ ("reset",   ESC :: lit "[0m");
    ("cyan",    ESC :: lit "[36m");
    ("green",   ESC :: lit "[32m");
    ("yellow",  ESC :: lit "[33m");
    ("red",     ESC :: lit "[31m");
    ("blue",    ESC :: lit "[34m");
    ("magenta", ESC :: lit "[35m");
    ("white",   ESC :: lit "[37m");
    ("bold",    ESC :: lit "[1m") ]%string.

Fixpoint assoc {V : Type} (k : string) (d : list (string * V)) : option V :=
  match d with
  | [] => None
  | (k', v) :: d' => if String.eqb k' k then Some v else assoc k d'
  end.

(** [COLORS[name]] for a name of the table. *)
Definition color (name : string) : str :=
  match assoc name COLORS with
  | Some c => c
  | None => []
  end.

(* ================================================================== *)
(** ** [visible_len] *)

(** The pattern [\x1B(?:[@-Z\\-_]|\[[0-?]*[ -/]*[@-~])] and its four
    character classes. *)
Definition FE : class := [(64, 90); (92, 95)]%N.      (* [@-Z\\-_] *)
Definition PARAM : class := [(48, 63)]%N.             (* [0-?] *)
Definition INTER : class := [(32, 47)]%N.             (* [ -/] *)
Definition FINAL : class := [(64, 126)]%N.            (* [@-~] *)

Definition ansi_escape : regex :=
  Cat (Lit ESC)
      (Alt (Cls FE)
           (Cat (Lit 91)
                (Cat (StarCls PARAM) (Cat (StarCls INTER) (Cls FINAL))))).

Definition visible_len (s : str) : Z := len (sub_empty ansi_escape s).

(* ================================================================== *)
(** ** Configuration values

    [json.load] yields nested Python objects.  A [dict] is kept as an
    association list in insertion order; a lookup finds the first entry
    of a key, a store replaces it in place or appends a new entry.  JSON
    keys are strings; they are ASCII in the source and are kept as
    [string] (for other keys the UTF-8 bytes stand for the text, which
    preserves equality and containment). *)

#[local] Unset Elimination Schemes.

Inductive value :=
| VNone
| VBool (b : bool)
| VNum (q : Q)
| VStr (s : string)
| VList (l : list value)
| VDict (d : list (string * value)).

#[local] Set Elimination Schemes.

Definition dict := list (string * value).

Fixpoint dict_set {V : Type} (k : string) (v : V) (d : list (string * V))
  : list (string * V) :=
  match d with
  | [] => [(k, v)]
  | (k', v') :: d' =>
      if String.eqb k' k then (k, v) :: d' else (k', v') :: dict_set k v d'
  end.

(** [{**a, **b}] *)
Definition dict_merge (a b : dict) : dict :=
  fold_left (fun acc kv => dict_set (fst kv) (snd kv) acc) b a.

(** [o[key]] for a string key. *)
Definition getitem (o : value) (key : string) : res value :=
  match o with
  | VDict d =>
      match assoc key d with
      | Some v => Ok v
      | None => Raise KeyError
      end
  | _ => Raise TypeError
  end.

(** [o[key] = v] for a string key. *)
Definition setitem (o : value) (key : string) (v : value) : res value :=
  match o with
  | VDict d => Ok (VDict (dict_set key v d))
  | _ => Raise TypeError
  end.

(** [key in o] for a string key: a key of a dict, a substring of a
    string, an element of a list; other objects are not iterable. *)
Definition contains (o : value) (key : string) : res bool :=
  match o with
  | VDict d =>
      Ok (match assoc key d with Some _ => true | None => false end)
  | VStr s =>
      Ok (match String.index 0 key s with Some _ => true | None => false end)
  | VList l =>
      Ok (existsb (fun v => match v with
                            | VStr s => String.eqb s key
                            | _ => false
                            end) l)
  | _ => Raise TypeError
  end.

(** Truth value of an object. *)
Definition truthy (o : value) : bool :=
  match o with
  | VNone => false
  | VBool b => b
  | VNum q => negb (Qeq_bool q 0)
  | VStr s => negb (String.eqb s "")
  | VList l => match l with [] => false | _ => true end
  | VDict d => match d with [] => false | _ => true end
  end.

(** The number behind an operand of [<] or [/]; [bool] is a subtype of
    [int]. *)
Definition as_number (o : value) : res Q :=
  match o with
  | VNum q => Ok q
  | VBool true => Ok 1
  | VBool false => Ok 0
  | _ => Raise TypeError
  end.

Definition Qlt_bool (x y : Q) : bool := negb (Qle_bool y x).

Definition DEFAULT_CONFIG : value :=
  VDict
    [ ("refresh_rate", VNum (1 # 2));
      ("ping_target", VStr "8.8.8.8");
      ("ping_port", VNum 53);
      ("show_cpu_per_core", VBool true);
      ("logging_enabled", VBool false);
      ("log_file", VStr "system_metrics.csv");
      ("thresholds",
        VDict [ ("mid", VNum 50); ("high", VNum 80) ]%string);
      ("colors",
        VDict [ ("label", VStr "red");
                ("value_low", VStr "green");
                ("value_mid", VStr "yellow");
                ("value_high", VStr "red");
                ("alert", VStr "red") ]%string) ]%string.

(** What [load_config] finds at [config.json]. *)
Inductive config_file :=
| Absent
| Unreadable
| Parsed (loaded : value).

(** The body of the [try] block, after [json.load] returned [loaded]. *)
Definition merge_loaded (loaded : value) : res value :=
  match loaded, DEFAULT_CONFIG with
  | VDict l, VDict d =>
      let cfg := VDict (dict_merge d l) in
      has_colors <- contains loaded "colors" ;;
      missing <-
        (if negb has_colors then Ok true
         else (c <- getitem loaded "colors" ;;
               has_label <- contains c "label" ;;
               Ok (negb has_label))) ;;
      if (missing : bool) then
        c <- getitem cfg "colors" ;;
        c' <- setitem c "label" (VStr "red") ;;
        setitem cfg "colors" c'
      else Ok cfg
  | _, _ => Raise TypeError
  end.

(** The store [cfg["colors"]["label"] = "red"] goes to the object that
    [cfg["colors"]] refers to: the document's own [colors] object or,
    when the document has none, the [colors] object of [DEFAULT_CONFIG]
    itself.  In the second case the value stored is the one already
    there, so [DEFAULT_CONFIG] is a constant of the model. *)

(** [load_config]: the value left in the global [cfg]. *)
Definition load_config (file : config_file) : value :=
  match file with
  | Absent => DEFAULT_CONFIG
  | Unreadable => DEFAULT_CONFIG
  | Parsed loaded =>
      match try_except (merge_loaded loaded) (fun _ => Ok DEFAULT_CONFIG) with
      | Ok cfg => cfg
      | Raise _ => DEFAULT_CONFIG
      end
  end.

(* ================================================================== *)
(** ** Colours *)

(** [COLORS.get(color_name, COLORS['white'])]; a list or a dict is not
    hashable. *)
Definition get_ansi (color_name : value) : res str :=
  match color_name with
  | VStr s =>
      Ok (match assoc s COLORS with
          | Some c => c
          | None => color "white"
          end)
  | VList _ | VDict _ => Raise TypeError
  | _ => Ok (color "white")
  end.

Definition py_lt (x : Q) (o : value) : res bool :=
  y <- as_number o ;; Ok (Qlt_bool x y).

Definition get_color_by_percent (cfg : value) (percent : Q) : res str :=
  th <- getitem cfg "thresholds" ;;
  mid <- getitem th "mid" ;;
  below_mid <- py_lt percent mid ;;
  if (below_mid : bool) then
    c <- getitem cfg "colors" ;;
    n <- getitem c "value_low" ;;
    get_ansi n
  else
    th <- getitem cfg "thresholds" ;;
    high <- getitem th "high" ;;
    below_high <- py_lt percent high ;;
    if (below_high : bool) then
      c <- getitem cfg "colors" ;;
      n <- getitem c "value_mid" ;;
      get_ansi n
    else
      c <- getitem cfg "colors" ;;
      n <- getitem c "value_high" ;;
      get_ansi n.

(* ================================================================== *)
(** ** Binary floating point

    The result of a float operation is the exact result rounded to the
    nearest binary64 number, ties to the even significand: 53
    significant bits in the normal range, multiples of [2 ** -1074]
    below it. *)

(** Round to the nearest integer, ties to the even one: the rounding of
    a significand, and of the [.2f] conversion applied to the exact
    value. *)
Definition round_half_even (q : Q) : Z :=
  let n := Qnum q in
  let d := Z.pos (Qden q) in
  let f := (n / d)%Z in
  let r := (n mod d)%Z in
  match (2 * r ?= d)%Z with
  | Lt => f
  | Gt => (f + 1)%Z
  | Eq => if Z.even f then f else (f + 1)%Z
  end.

Definition pow2 (e : Z) : Q := 2 ^ e.

(** The binary exponent of [x > 0]: [2 ** e <= x < 2 ** (e + 1)]. *)
Definition ilog2 (x : Q) : Z :=
  let k := (Z.log2 (Qnum x) - Z.log2 (Z.pos (Qden x)))%Z in
  if Qle_bool (pow2 k) x then k else (k - 1)%Z.

(** The nearest double of [x > 0]: its significand, in units of the
    last place [2 ** e], rounded to an integer. *)
Definition round_pos (x : Q) : Q :=
  let e := Z.max (ilog2 x - 52) (-1074) in
  inject_Z (round_half_even (x * pow2 (- e))) * pow2 e.

Definition float_round (x : Q) : Q :=
  match x ?= 0 with
  | Eq => 0
  | Gt => round_pos x
  | Lt => - round_pos (- x)
  end.

(** [x * y] and [x / y] with a float operand; an [int] operand is a
    double itself at the calls of this program, and [int / int] is
    rounded once as well. *)
Definition float_mul (x y : Q) : Q := float_round (x * y).

Definition float_truediv (x y : Q) : Q := float_round (x / y).

(** [int(x // y)] on floats: the floor of the exact quotient, which is
    what the float computes below [2 ** 53]. *)
Definition float_floordiv (x y : Q) : Z := Qfloor (x / y).

(* ================================================================== *)
(** ** [get_size]

    [bytes] is an [int] at the memory and disk calls and a [float] at
    the network calls.  The comparison with 1024 is exact; every
    [bytes /= factor] leaves a float, the quotient rounded. *)

Definition digits (n : Z) : str :=
  lit (NilZero.string_of_uint (N.to_uint (Z.to_N n))).

Definition two_digits (n : Z) : str :=
  if (n <? 10)%Z then lit "0" ++ digits n else digits n.

(** [f"{x:.2f}"] *)
Definition fmt_2f (x : Q) : str :=
  let h := round_half_even (Qabs x * 100) in
  (if Qlt_bool x 0 then lit "-" else []) ++
  digits (h / 100) ++ lit "." ++ two_digits (h mod 100).

Definition units : list string := [""; "K"; "M"; "G"; "T"; "P"]%string.

Definition factor : Q := 1024.

(** The [for unit in [...]] loop; [None] is Python's [None], returned by
    falling off the end of the function. *)
Fixpoint get_size_loop (us : list string) (bytes : Q) (suffix : str)
  : option str :=
  match us with
  | [] => None
  | unit :: us' =>
      if Qlt_bool bytes factor
      then Some (fmt_2f bytes ++ lit unit ++ suffix)
      else get_size_loop us' (float_truediv bytes factor) suffix
  end.

Definition get_size (bytes : Q) : option str :=
  get_size_loop units bytes (lit "B").

(* ================================================================== *)
(** ** [draw_bar] *)

Definition BLOCK : N := 9608.   (* U+2588 FULL BLOCK *)
Definition DASH : N := 45.

(** [length] is an [int] at every call, so [int(length)] is [length];
    [percent] is a float, so the product is a rounded float product.
    [filled] after the two assignments. *)
Definition bar_filled (percent : Q) (length : Z) : Z :=
  let filled := float_floordiv (float_mul (inject_Z length) percent) 100 in
  Z.min length (Z.max 0 filled).

Definition draw_bar (cfg : value) (percent : Q) (length : Z) : res str :=
  let filled := bar_filled percent length in
  color_code <- get_color_by_percent cfg percent ;;
  let bar := times BLOCK filled ++ times DASH (length - filled) in
  Ok (lit "[" ++ color_code ++ bar ++ color "reset" ++ lit "]").

(* ================================================================== *)
(** ** [pr] and [draw_row]

    Standard output is the list of the lines printed so far. *)

Definition stdout := list str.

Definition print (line : str) (out : stdout) : stdout := out ++ [line].

Definition SPACE : N := 32.
Definition BORDER : N := 9553.  (* U+2551 BOX DRAWINGS DOUBLE VERTICAL *)

Definition pr (text : str) (out : stdout) : stdout :=
  let padding_str := times SPACE PADDING_LEFT in
  print (padding_str ++ text) out.

Definition row_padding (content : str) : Z :=
  let v_len := visible_len content in
  let padding := (W - 2 - v_len - 2)%Z in
  if (padding <? 0)%Z then 0%Z else padding.

Definition row_text (content border_color : str) : str :=
  border_color ++ [BORDER] ++ color "reset" ++ [SPACE] ++ content ++
  times SPACE (row_padding content) ++ [SPACE] ++
  border_color ++ [BORDER] ++ color "reset".

Definition draw_row (content border_color : str) (out : stdout) : stdout :=
  pr (row_text content border_color) out.

Module MonitorV1.

(** [monitorV1.py] has no [pr]: the row goes to [print] as it is. *)
Definition draw_row (content border_color : str) (out : stdout) : stdout :=
  print (row_text content border_color) out.

End MonitorV1.

(* ================================================================== *)
(** ** The sampling loop: network throughput

    [psutil.net_io_counters()] is the collaborator; the loop receives
    its successive readings.  [old_net] is the one variable that lives
    across iterations. *)

Record snetio := { bytes_sent : Z; bytes_recv : Z }.

(** [x / o]: true division. *)
Definition py_div (x : Q) (o : value) : res Q :=
  y <- as_number o ;;
  if Qeq_bool y 0 then Raise ZeroDivisionError else Ok (x / y).

Record rates := { sent : Q; recv : Q }.

(** Lines 323-325 of [main]: the two rates and the new [old_net]. *)
Definition net_step (cfg : value) (old_net net : snetio)
  : res (rates * snetio) :=
  rr <- getitem cfg "refresh_rate" ;;
  sent <- py_div (inject_Z (bytes_sent net - bytes_sent old_net)) rr ;;
  rr' <- getitem cfg "refresh_rate" ;;
  recv <- py_div (inject_Z (bytes_recv net - bytes_recv old_net)) rr' ;;
  Ok ({| sent := sent; recv := recv |}, net).

(** The [while True] loop over the readings of a run: the rates of every
    iteration and the [old_net] left at the end. *)
Fixpoint net_loop (cfg : value) (old_net : snetio) (readings : list snetio)
  : res (list rates * snetio) :=
  match readings with
  | [] => Ok ([], old_net)
  | net :: later =>
      step <- net_step cfg old_net net ;;
      rest <- net_loop cfg (snd step) later ;;
      Ok (fst step :: fst rest, snd rest)
  end.

(* ================================================================== *)
(** ** [get_ping]

    The clock and the socket layer are the environment: each call
    returns or raises, as the environment decides.  [connect] sees the
    timeout that was set on the socket. *)

Inductive family := AF_INET.
Inductive socktype := SOCK_STREAM.

Record network := {
  time_start : res Q;
  socket_new : family -> socktype -> res unit;
  settimeout : Q -> res unit;
  connect : option Q -> value -> value -> res unit;
  close : res unit;
  time_end : res Q
}.

(** The body of the [try] block. *)
Definition ping_attempt (cfg : value) (env : network) : res (option Q) :=
  st <- time_start env ;;
  socket_new env AF_INET SOCK_STREAM ;;;
  settimeout env (1 # 2) ;;;
  target <- getitem cfg "ping_target" ;;
  port <- getitem cfg "ping_port" ;;
  connect env (Some (1 # 2)) target port ;;;
  close env ;;;
  t <- time_end env ;;
  Ok (Some ((t - st) * 1000)).

Definition get_ping (cfg : value) (env : network) : res (option Q) :=
  try_except (ping_attempt cfg env) (fun _ => Ok None).

(* ================================================================== *)
(** ** [log_metrics]

    A file is the text written to it; the file system is a table from
    path to file or directory.  [csv.writer], in its default dialect,
    puts a row on one line: every field as text, quoted when it holds a
    comma, a quote or a line break, the fields joined by commas, the
    line closed by CR LF.  How a float prints is left to [float_repr]. *)

Inductive cell :=
| CText (s : str)
| CFloat (q : Q)
| CInt (z : Z).

Definition row := list cell.

Definition COMMA : N := 44.
Definition QUOTE : N := 34.
Definition CR : N := 13.
Definition LF : N := 10.

(** [str(z)] for an [int]. *)
Definition int_str (z : Z) : str :=
  if (z <? 0)%Z then lit "-" ++ digits (- z) else digits z.

Definition special (c : N) : bool :=
  ((c =? COMMA) || (c =? QUOTE) || (c =? CR) || (c =? LF))%N.

Definition needs_quoting (f : str) : bool := existsb special f.

Definition quoted (f : str) : str :=
  [QUOTE] ++
  flat_map (fun c => if (c =? QUOTE)%N then [QUOTE; QUOTE] else [c]) f ++
  [QUOTE].

Fixpoint csv_join (fields : list str) : str :=
  match fields with
  | [] => []
  | [f] => f
  | f :: fs => f ++ [COMMA] ++ csv_join fs
  end.

Inductive node :=
| File (text : str)
| Dir.

Definition filesystem := list (string * node).

Inductive mode := ModeAppend | ModeWrite.

Definition isfile (fs : filesystem) (path : string) : bool :=
  match assoc path fs with
  | Some (File _) => true
  | _ => false
  end.

(** The directory part of a path: what stands before its last [/]. *)
Fixpoint dirname (path : string) : option string :=
  match path with
  | EmptyString => None
  | String c rest =>
      match dirname rest with
      | Some d => Some (String c d)
      | None => if Ascii.eqb c "/" then Some EmptyString else None
      end
  end.

Fixpoint ends_with_slash (path : string) : bool :=
  match path with
  | EmptyString => false
  | String c EmptyString => Ascii.eqb c "/"
  | String _ rest => ends_with_slash rest
  end.

(** Whether a file can be created under a name that is not in use: the
    name is not empty and names no directory, and the directory it is
    to stand in exists (the working directory and the root always do). *)
Definition creatable (fs : filesystem) (path : string) : bool :=
  match path with
  | EmptyString => false
  | _ =>
      negb (ends_with_slash path) &&
      match dirname path with
      | None | Some EmptyString => true
      | Some d => match assoc d fs with
                  | Some Dir => true
                  | _ => false
                  end
      end
  end.

(** [open(path, mode)]: the text that the writes come after.  A
    directory raises [IsADirectoryError] and a name that cannot be
    created [FileNotFoundError], both of them [OSError]s. *)
Definition open (fs : filesystem) (path : string) (m : mode) : res str :=
  match assoc path fs with
  | Some Dir => Raise OSError
  | Some (File text) =>
      Ok (match m with ModeAppend => text | ModeWrite => [] end)
  | None => if creatable fs path then Ok [] else Raise OSError
  end.

(** A configured path; only text paths are modelled. *)
Definition as_path (o : value) : res string :=
  match o with
  | VStr s => Ok s
  | _ => Raise TypeError
  end.

Record time_of_day := { hour : Z; minute : Z; second : Z }.

(** [strftime("%H:%M:%S")] *)
Definition strftime_HMS (t : time_of_day) : str :=
  two_digits (hour t) ++ lit ":" ++ two_digits (minute t) ++ lit ":" ++
  two_digits (second t).

Definition HEADER : row :=
  map (fun s => CText (lit s))
      ["Time"; "CPU"; "RAM"; "Disk"; "Down"; "Up"; "Ping"]%string.

(** [ping or 0] *)
Definition ping_or_0 (ping : option Q) : cell :=
  match ping with
  | None => CInt 0
  | Some q => if Qeq_bool q 0 then CInt 0 else CFloat q
  end.

Record sample := {
  now : time_of_day;
  cpu : Q;
  ram : Q;
  disk : Q;
  down : Q;
  up : Q;
  ping : option Q
}.

Definition data_row (s : sample) : row :=
  [ CText (strftime_HMS (now s)); CFloat (cpu s); CFloat (ram s);
    CFloat (disk s); CFloat (down s); CFloat (up s); ping_or_0 (ping s) ].

Section Csv.

Variable float_repr : Q -> str.

Definition cell_str (c : cell) : str :=
  match c with
  | CText s => s
  | CFloat q => float_repr q
  | CInt z => int_str z
  end.

Definition csv_field (c : cell) : str :=
  let f := cell_str c in
  if needs_quoting f then quoted f else f.

Definition csv_line (r : row) : str :=
  csv_join (map csv_field r) ++ [CR; LF].

(** [wr.writerow(r)] on a file that holds [text]. *)
Definition writerow (r : row) (text : str) : str := text ++ csv_line r.

Definition log_metrics (cfg : value) (s : sample) (fs : filesystem)
  : res filesystem :=
  enabled <- getitem cfg "logging_enabled" ;;
  if negb (truthy enabled) then Ok fs
  else
    p <- getitem cfg "log_file" ;;
    path <- as_path p ;;
    let m := if isfile fs path then ModeAppend else ModeWrite in
    p' <- getitem cfg "log_file" ;;
    path' <- as_path p' ;;
    f <- open fs path' m ;;
    let f := match m with
             | ModeWrite => writerow HEADER f
             | ModeAppend => f
             end in
    let f := writerow (data_row s) f in
    Ok (dict_set path' (File f) fs).

(** One call per iteration of the loop. *)
Fixpoint log_all (cfg : value) (samples : list sample) (fs : filesystem)
  : res filesystem :=
  match samples with
  | [] => Ok fs
  | s :: later =>
      fs' <- log_metrics cfg s fs ;;
      log_all cfg later fs'
  end.

(** The text of a sequence of rows. *)
Definition csv_text (rows : list row) : str := flat_map csv_line rows.

End Csv.

(* ================================================================== *)
(** ** [main]: the lines of a frame *)

Definition RULE : N := 9552.          (* U+2550 *)
Definition TOP_LEFT : N := 9556.      (* U+2554 *)
Definition TOP_RIGHT : N := 9559.     (* U+2557 *)
Definition BOTTOM_LEFT : N := 9562.   (* U+255A *)
Definition BOTTOM_RIGHT : N := 9565.  (* U+255D *)

Definition C_RST : str := color "reset".
Definition C_CYN : str := color "cyan".
Definition C_YLW : str := color "yellow".

Definition MAIN_TOP : str :=
  C_CYN ++ [TOP_LEFT] ++ times RULE 64 ++ [TOP_RIGHT] ++ C_RST.
Definition MAIN_BOT : str :=
  C_CYN ++ [BOTTOM_LEFT] ++ times RULE 64 ++ [BOTTOM_RIGHT] ++ C_RST.
Definition UPTIME_TOP : str :=
  C_CYN ++ [TOP_LEFT] ++ times RULE 28 ++ [SPACE] ++ C_YLW ++ lit "UPTIME" ++
  C_CYN ++ [SPACE] ++ times RULE 28 ++ [TOP_RIGHT] ++ C_RST.
Definition UPTIME_BOT : str :=
  C_CYN ++ [BOTTOM_LEFT] ++ times RULE 64 ++ [BOTTOM_RIGHT] ++ C_RST.
Definition CPU_TOP : str :=
  C_CYN ++ [TOP_LEFT] ++ times RULE 27 ++ [SPACE] ++ C_YLW ++ lit "CPU INFO" ++
  C_CYN ++ [SPACE] ++ times RULE 27 ++ [TOP_RIGHT] ++ C_RST.
Definition CPU_BOT : str :=
  C_CYN ++ [BOTTOM_LEFT] ++ times RULE 64 ++ [BOTTOM_RIGHT] ++ C_RST.
Definition RAM_TOP : str :=
  C_CYN ++ [TOP_LEFT] ++ times RULE 28 ++ [SPACE] ++ C_YLW ++ lit "MEMORY" ++
  C_CYN ++ [SPACE] ++ times RULE 28 ++ [TOP_RIGHT] ++ C_RST.
Definition RAM_BOT : str :=
  C_CYN ++ [BOTTOM_LEFT] ++ times RULE 64 ++ [BOTTOM_RIGHT] ++ C_RST.
Definition STO_TOP : str :=
  C_CYN ++ [TOP_LEFT] ++ times RULE 27 ++ [SPACE] ++ C_YLW ++ lit "STORAGE" ++
  C_CYN ++ [SPACE] ++ times RULE 28 ++ [TOP_RIGHT] ++ C_RST.
Definition STO_BOT : str :=
  C_CYN ++ [BOTTOM_LEFT] ++ times RULE 64 ++ [BOTTOM_RIGHT] ++ C_RST.
Definition NET_TOP : str :=
  C_CYN ++ [TOP_LEFT] ++ times RULE 27 ++ [SPACE] ++ C_YLW ++ lit "NETWORK" ++
  C_CYN ++ [SPACE] ++ times RULE 28 ++ [TOP_RIGHT] ++ C_RST.
Definition NET_BOT : str :=
  C_CYN ++ [BOTTOM_LEFT] ++ times RULE 64 ++ [BOTTOM_RIGHT] ++ C_RST.

(** [{s:<w}] and [{s:>w}]: fill with spaces up to [w] characters. *)
Definition ljust (w : nat) (s : str) : str :=
  s ++ repeat SPACE (w - List.length s).

Definition rjust (w : nat) (s : str) : str :=
  repeat SPACE (w - List.length s) ++ s.

(** [{x:.0f}] *)
Definition fmt_0f (x : Q) : str :=
  (if Qlt_bool x 0 then lit "-" else []) ++ digits (round_half_even (Qabs x)).

(** The title row; [node] is [platform.node()]. *)
Definition title_content (node : str) : str :=
  color "yellow" ++ lit "System Monitor Pro By Azhar        |  " ++
  ljust 20 node.

(** [{p.device[:5]:<5}] of a storage row. *)
Definition device_label (device : str) : str := ljust 5 (firstn 5 device).

(** [range(0, n, 2)] *)
Definition range2 (n : nat) : list nat :=
  map (fun k => 2 * k)%nat (seq 0 (Nat.div2 (n + 1))).

(** The body of the per-core loop up to [draw_row]: the row of the cores
    [i] and [i + 1].  [i] comes from [range(0, len(cores), 2)] and is in
    range. *)
Definition core_row (cfg : value) (cores : list Q) (i : nat) : res str :=
  let c1 := nth i cores 0 in
  let c2 := if (i + 1 <? List.length cores)%nat
            then Some (nth (i + 1) cores 0) else None in
  b1 <- draw_bar cfg c1 5 ;;
  let row := lit " #" ++ two_digits (Z.of_nat (i + 1)) ++ lit " " ++ b1 ++
             lit " " ++ rjust 3 (fmt_0f c1) ++ lit "%" in
  match c2 with
  | Some c2 =>
      b2 <- draw_bar cfg c2 5 ;;
      Ok (row ++ lit "   #" ++ two_digits (Z.of_nat (i + 2)) ++ lit " " ++
          b2 ++ lit " " ++ rjust 3 (fmt_0f c2) ++ lit "%")
  | None => Ok row
  end.

Fixpoint core_rows_from (cfg : value) (cores : list Q) (indices : list nat)
    (out : stdout) : res stdout :=
  match indices with
  | [] => Ok out
  | i :: later =>
      row <- core_row cfg cores i ;;
      core_rows_from cfg cores later (draw_row row (color "cyan") out)
  end.

(** [if cores: for i in range(0, len(cores), 2): ...] *)
Definition core_rows (cfg : value) (cores : list Q) (out : stdout)
  : res stdout :=
  core_rows_from cfg cores (range2 (List.length cores)) out.

(* ================================================================== *)
(** ** Notions used by the statements *)

(** A control sequence is a word of the language of [ansi_escape]. *)
Definition control_sequence (u : str) : Prop := matches ansi_escape u.

(** [plain_of s r]: [r] is [s] with its control sequences removed, read
    from the left.  A control sequence that starts at the head is
    dropped; a character at which none starts is content. *)
Inductive plain_of : str -> str -> Prop :=
| plain_nil : plain_of [] []
| plain_seq u rest r :
    control_sequence u -> plain_of rest r -> plain_of (u ++ rest) r
| plain_chr c s r :
    (forall u rest, c :: s = u ++ rest -> ~ control_sequence u) ->
    plain_of s r -> plain_of (c :: s) (c :: r).

(** The two forms of a control sequence: ESC and one byte of [FE], or
    ESC [[], parameter bytes, intermediate bytes and a final byte. *)
Inductive sequence_shape : str -> Prop :=
| shape_fe c : in_class FE c = true -> sequence_shape [ESC; c]
| shape_csi ps ins f :
    Forall (fun c => in_class PARAM c = true) ps ->
    Forall (fun c => in_class INTER c = true) ins ->
    in_class FINAL f = true ->
    sequence_shape (ESC :: 91%N :: ps ++ ins ++ [f]).

(** A parameter byte of a colour or style sequence [ESC [[ ... m]: a
    digit or a semicolon. *)
Definition sgr_param (c : N) : bool :=
  ((48 <=? c) && (c <=? 57) || (c =? 59))%N.

(** A string assembled from content and control sequences. *)
Inductive segment :=
| Content (t : str)
| Control (u : str).

Definition segment_ok (g : segment) : Prop :=
  match g with
  | Content t => ~ In ESC t
  | Control u => control_sequence u
  end.

Definition segment_text (g : segment) : str :=
  match g with Content t => t | Control u => u end.

Definition segment_content (g : segment) : str :=
  match g with Content t => t | Control _ => [] end.

Definition assemble (gs : list segment) : str :=
  flat_map segment_text gs.

Definition content_of (gs : list segment) : str :=
  flat_map segment_content gs.

(** [clamp x lo hi] of the gauge rule. *)
Definition clamp (x lo hi : Z) : Z := Z.max lo (Z.min x hi).

(** A float result that is a number: beyond it the operation overflows
    to [inf], which [int] refuses with a [ValueError]. *)
Definition finite (x : Q) : Prop := Qabs x < pow2 1024.

(** A double whose last place is worth [2 ** t]. *)
Definition dyadic (t : Z) (x : Q) : Prop :=
  exists m : Z, (Z.abs m < 2 ^ 53)%Z /\ x == inject_Z m * pow2 t.

(** The double written [46.666666666666664]. *)
Definition P46 : Q := 6567749456581973 # 140737488355328.

(** The statement of the byte-count rule: [scaled b k] is [b] after [k]
    of the loop's divisions by 1024, [pow1024 k] is [1024 ^ k], and
    [unit_floor k] is where the range of the [k]-th suffix begins. *)
Fixpoint scaled (b : Q) (k : nat) : Q :=
  match k with
  | O => b
  | S k' => scaled (float_truediv b factor) k'
  end.

Definition pow1024 (k : nat) : Q := inject_Z (1024 ^ Z.of_nat k).

Definition unit_floor (k : nat) : Q :=
  match k with
  | O => 0
  | S _ => pow1024 k
  end.

(** The throughput rule: counter difference over the refresh rate. *)
Definition rate_of (r : Q) (prev cur : snetio) : rates :=
  {| sent := inject_Z (bytes_sent cur - bytes_sent prev) / r;
     recv := inject_Z (bytes_recv cur - bytes_recv prev) / r |}.

(** An unreachable target: the connection attempt times out. *)
Definition unreachable : network :=
  {| time_start := Ok (17 # 1);
     socket_new := fun _ _ => Ok tt;
     settimeout := fun _ => Ok tt;
     connect := fun _ _ _ => Raise OSError;
     close := Ok tt;
     time_end := Ok (35 # 2) |}.

(** A configuration with logging switched on, as [main] leaves it after
    [--log]. *)
Definition LOGGING_CONFIG : value :=
  match setitem DEFAULT_CONFIG "logging_enabled" (VBool true) with
  | Ok cfg => cfg
  | Raise _ => DEFAULT_CONFIG
  end.

(** One sample of a run. *)
Definition SAMPLE : sample :=
  {| now := {| hour := 9; minute := 5; second := 30 |};
     cpu := 25 # 2; ram := 40; disk := 71;
     down := 2000; up := 1000; ping := None |}.

(** The user document [{"colors": {"value_low": "blue"}}]. *)
Definition PARTIAL_COLORS : value :=
  VDict [ ("colors", VDict [ ("value_low", VStr "blue") ]%string) ]%string.

(** [cfg[section][key]] *)
Definition lookup2 (cfg : value) (section key : string) : res value :=
  s <- getitem cfg section ;; getitem s key.

Definition valid_time (t : time_of_day) : Prop :=
  (0 <= hour t < 24)%Z /\ (0 <= minute t < 60)%Z /\ (0 <= second t < 60)%Z.

(** The character of a decimal digit, and a number below 100 written
    with two of them. *)
Definition digit (d : Z) : N := Z.to_N (48 + d).

Definition two_places (n : Z) : str := [digit (n / 10); digit (n mod 10)].

(** The number of commas of a line. *)
Definition commas (line : str) : nat := count_occ N.eq_dec line COMMA.

(** A configuration in which the colour of every percentage can be
    looked up: both thresholds are numbers and the three tier names are
    hashable. *)
Definition is_number (o : value) : bool :=
  match o with
  | VNum _ | VBool _ => true
  | _ => false
  end.

Definition hashable (o : value) : bool :=
  match o with
  | VList _ | VDict _ => false
  | _ => true
  end.

Definition has (o : value) (key : string) (p : value -> bool) : bool :=
  match getitem o key with
  | Ok v => p v
  | Raise _ => false
  end.

Definition tiers_ready (cfg : value) : bool :=
  has cfg "thresholds" (fun th => has th "mid" is_number && has th "high" is_number) &&
  has cfg "colors" (fun c => has c "value_low" hashable &&
                             has c "value_mid" hashable &&
                             has c "value_high" hashable).

(** The tier of a percentage between two thresholds, and the key of its
    colour. *)
Definition tier (mid high p : Q) : nat :=
  if Qlt_bool p mid then 0 else if Qlt_bool p high then 1 else 2.

Definition tier_key (t : nat) : string :=
  match t with
  | O => "value_low"
  | S O => "value_mid"
  | _ => "value_high"
  end.

(** What the safety check of [load_config] makes of the [colors] entry
    of a document: rejected (the whole document is dropped), or taken as
    it is although it is no object. *)
Definition mentions_label (c : value) : bool :=
  match contains c "label" with
  | Ok b => b
  | Raise _ => false
  end.

Definition colors_rejected (c : value) : bool :=
  match c with
  | VDict _ => false
  | _ => negb (mentions_label c)
  end.

Definition colors_unchecked (c : value) : bool :=
  match c with
  | VStr _ | VList _ => mentions_label c
  | _ => false
  end.

(** The bytes that the rates of a run account for. *)
Definition total_sent (out : list rates) : Q :=
  fold_right (fun x acc => sent x + acc) 0 out.

Definition total_recv (out : list rates) : Q :=
  fold_right (fun x acc => recv x + acc) 0 out.

(** The box lines of [main]. *)
Definition BOX_LINES : list str :=
  [ MAIN_TOP; MAIN_BOT; UPTIME_TOP; UPTIME_BOT; CPU_TOP; CPU_BOT;
    RAM_TOP; RAM_BOT; STO_TOP; STO_BOT; NET_TOP; NET_BOT ].

(** The entries of [DEFAULT_CONFIG] and its [colors] object. *)
Definition default_items : dict :=
  match DEFAULT_CONFIG with
  | VDict d => d
  | _ => []
  end.

Definition default_colors : value :=
  match assoc "colors" default_items with
  | Some c => c
  | None => VNone
  end.

Definition is_object (o : value) : bool :=
  match o with
  | VDict _ => true
  | _ => false
  end.

(** [renders s plain]: wherever [s] stands in front of other text, the
    stripping takes [s] to [plain] and goes on with the rest. *)
Definition renders (s plain : str) : Prop :=
  forall t, sub_empty ansi_escape (s ++ t) = plain ++ sub_empty ansi_escape t.

(* ================================================================== *)
(** * Properties *)

(** ** Strings *)

Lemma len_app (s t : str) : len (s ++ t) = (len s + len t)%Z.
Proof. unfold len. rewrite List.length_app. lia. Qed.

Lemma len_times (c : N) (n : Z) : (0 <= n)%Z -> len (times c n) = n.
Proof. intros H. unfold len, times. rewrite repeat_length. lia. Qed.

Lemma times_nonpos (c : N) (n : Z) : (n <= 0)%Z -> times c n = [].
Proof.
  intros H. unfold times.
  replace (Z.to_nat n) with 0%nat by lia. reflexivity.
Qed.

Lemma In_times (c x : N) (n : Z) : In x (times c n) -> x = c.
Proof. unfold times. intros H. apply repeat_spec in H. exact H. Qed.

(** ** The matcher against the language of the pattern *)

Section MatcherSound.

Variable A : Type.

Lemma star_sound cs : forall s (k : str -> option A) a,
  star cs s k = Some a ->
  exists u t, s = u ++ t /\ matches (StarCls cs) u /\ k t = Some a.
Proof.
  induction s as [|c s IH]; intros k a H; simpl in H.
  - exists [], []. repeat split; [constructor | exact H].
  - destruct (in_class cs c) eqn:Hc.
    + destruct (star cs s k) as [a'|] eqn:Hs.
      * inversion H; subst a'. destruct (IH _ _ Hs) as (u & t & -> & Hu & Hk).
        exists (c :: u), t. repeat split; [now constructor | exact Hk].
      * exists [], (c :: s). repeat split; [constructor | exact H].
    + exists [], (c :: s). repeat split; [constructor | exact H].
Qed.

Lemma bt_sound : forall r s (k : str -> option A) a,
  bt r s k = Some a ->
  exists u t, s = u ++ t /\ matches r u /\ k t = Some a.
Proof.
  induction r as [c|cs|cs|r1 IH1 r2 IH2|r1 IH1 r2 IH2]; intros s k a H;
    simpl in H.
  - destruct s as [|c' s]; [discriminate|].
    destruct (N.eqb_spec c' c) as [->|]; [|discriminate].
    exists [c], s. repeat split; [constructor | exact H].
  - destruct s as [|c' s]; [discriminate|].
    destruct (in_class cs c') eqn:Hc; [|discriminate].
    exists [c'], s. repeat split; [now constructor | exact H].
  - now apply star_sound.
  - destruct (IH1 _ _ _ H) as (u1 & t1 & -> & Hu1 & H1).
    destruct (IH2 _ _ _ H1) as (u2 & t2 & -> & Hu2 & H2).
    exists (u1 ++ u2), t2. rewrite <- app_assoc.
    repeat split; [now constructor | exact H2].
  - destruct (bt r1 s k) as [a'|] eqn:H1.
    + inversion H; subst a'.
      destruct (IH1 _ _ _ H1) as (u & t & -> & Hu & Hk).
      exists u, t. repeat split; [now apply MAltL | exact Hk].
    + destruct (IH2 _ _ _ H) as (u & t & -> & Hu & Hk).
      exists u, t. repeat split; [now apply MAltR | exact Hk].
Qed.

(** Whenever some word of the language is a prefix after which the
    continuation succeeds, the matcher succeeds. *)
Lemma bt_complete : forall r u, matches r u ->
  forall t (k : str -> option A) a, k t = Some a ->
  exists a', bt r (u ++ t) k = Some a'.
Proof.
  induction 1 as [c|cs c Hc|cs|cs c u Hc Hu IH|r1 r2 u1 u2 H1 IH1 H2 IH2
                 |r1 r2 u H1 IH1|r1 r2 u H2 IH2]; intros t k a Hk; simpl.
  - rewrite N.eqb_refl. eauto.
  - rewrite Hc. eauto.
  - destruct t as [|c t]; simpl; [eauto|].
    destruct (in_class cs c); [|eauto].
    destruct (star cs t k); eauto.
  - rewrite Hc. destruct (IH t k a Hk) as [a' Ha'].
    simpl in Ha'. rewrite Ha'. eauto.
  - rewrite <- app_assoc.
    destruct (IH2 t k a Hk) as [a2 Ha2].
    apply (IH1 (u2 ++ t) (fun s' => bt r2 s' k) a2 Ha2).
  - destruct (IH1 t k a Hk) as [a' Ha']. rewrite Ha'. eauto.
  - destruct (bt r1 (u ++ t) k); [eauto|]. apply (IH2 t k a Hk).
Qed.

(** A greedy star that runs into a character outside its class stops
    there, and no backtracking takes place when the rest matches. *)
Lemma star_run cs (k : str -> option A) a : forall ps t,
  Forall (fun c => in_class cs c = true) ps ->
  match t with [] => True | c :: _ => in_class cs c = false end ->
  k t = Some a ->
  star cs (ps ++ t) k = Some a.
Proof.
  induction ps as [|c ps IH]; intros t Hps Ht Hk; simpl.
  - destruct t as [|c t]; simpl; [exact Hk|]. now rewrite Ht.
  - inversion Hps; subst. rewrite H1. now rewrite (IH t H2 Ht Hk).
Qed.

End MatcherSound.

(** ** The shape of a control sequence *)

Lemma star_Forall cs u :
  matches (StarCls cs) u -> Forall (fun c => in_class cs c = true) u.
Proof.
  remember (StarCls cs) as r eqn:E. induction 1; inversion E; subst; auto.
Qed.

Lemma Forall_star cs u :
  Forall (fun c => in_class cs c = true) u -> matches (StarCls cs) u.
Proof. induction 1; now constructor. Qed.

Lemma control_sequence_shape u : control_sequence u <-> sequence_shape u.
Proof.
  unfold control_sequence, ansi_escape. split.
  - intros H. inversion H as [| | | |r1 r2 u1 u2 H1 H2| |]; subst.
    inversion H1; subst. inversion H2 as [| | | | |? ? ? Hl|? ? ? Hr]; subst.
    + inversion Hl; subst. now apply shape_fe.
    + inversion Hr as [| | | |? ? v1 v2 G1 G2| |]; subst.
      inversion G1; subst.
      inversion G2 as [| | | |? ? w1 w2 K1 K2| |]; subst.
      inversion K2 as [| | | |? ? x1 x2 L1 L2| |]; subst.
      inversion L2; subst. simpl.
      apply shape_csi; auto using star_Forall.
  - intros [c Hc|ps ins f Hps Hins Hf].
    + apply (MCat (r1:=Lit ESC) (u1:=[ESC]) (u2:=[c])); [constructor|].
      apply MAltL. now constructor.
    + apply (MCat (r1:=Lit ESC) (u1:=[ESC]) (u2:=91%N :: ps ++ ins ++ [f]));
        [constructor|].
      apply MAltR.
      apply (MCat (r1:=Lit 91) (u1:=[91%N]) (u2:=ps ++ ins ++ [f]));
        [constructor|].
      apply MCat; [now apply Forall_star|].
      apply MCat; [now apply Forall_star|]. now constructor.
Qed.

Lemma class_bounds lo hi c :
  in_class [(lo, hi)] c = true <-> (lo <= c <= hi)%N.
Proof.
  unfold in_class. simpl. rewrite orb_false_r, andb_true_iff.
  rewrite !N.leb_le. tauto.
Qed.

Lemma not_in_class lo hi c :
  (c < lo \/ hi < c)%N -> in_class [(lo, hi)] c = false.
Proof.
  intros H. destruct (in_class [(lo, hi)] c) eqn:E; [|reflexivity].
  apply class_bounds in E. lia.
Qed.

Lemma sequence_nonempty u : sequence_shape u -> exists v, u = ESC :: v.
Proof. intros [c _|ps ins f _ _ _]; eauto. Qed.

(** The matcher takes a control sequence at the head of the string
    whole, whatever follows it. *)
Lemma bt_control_sequence (A : Type) u t (k : str -> option A) a :
  sequence_shape u -> k t = Some a -> bt ansi_escape (u ++ t) k = Some a.
Proof.
  intros [c Hc|ps ins f Hps Hins Hf] Hk.
  - cbn [app bt ansi_escape]. rewrite N.eqb_refl, Hc. now rewrite Hk.
  - cbn [app bt ansi_escape]. rewrite N.eqb_refl.
    replace (in_class FE 91) with false by reflexivity.
    rewrite N.eqb_refl. rewrite <- !app_assoc.
    assert (Hf' : (64 <= f <= 126)%N) by now apply class_bounds.
    rewrite star_run with (a := a); auto.
    + destruct ins as [|i ins]; cbn [app].
      * apply not_in_class. lia.
      * inversion Hins; subst.
        match goal with H : in_class INTER i = true |- _ =>
          apply class_bounds in H end.
        apply not_in_class. lia.
    + rewrite star_run with (a := a); auto.
      * cbn [app]. apply not_in_class. lia.
      * cbn [app]. now rewrite Hf.
Qed.

Lemma match_len_control_sequence u t :
  sequence_shape u -> match_len ansi_escape (u ++ t) = Some (List.length u).
Proof.
  intros Hu. unfold match_len.
  apply bt_control_sequence; [exact Hu|].
  rewrite List.length_app. f_equal. lia.
Qed.

Lemma match_len_none s :
  (forall u t, s = u ++ t -> ~ control_sequence u) ->
  match_len ansi_escape s = None.
Proof.
  intros H. destruct (match_len ansi_escape s) as [n|] eqn:E; [|reflexivity].
  apply bt_sound in E. destruct E as (u & t & -> & Hu & _).
  exfalso. exact (H u t eq_refl Hu).
Qed.

Lemma match_len_not_ESC c s : c <> ESC -> match_len ansi_escape (c :: s) = None.
Proof.
  intros Hc. unfold match_len. simpl.
  destruct (N.eqb_spec c ESC); [contradiction|reflexivity].
Qed.

(** ** [sub] over a concatenation *)

Lemma sub_go_skip r : forall v t,
  sub_go r (List.length v) (v ++ t) = sub_go r 0 t.
Proof. induction v as [|c v IH]; intros t; simpl; auto. Qed.

Lemma sub_empty_control u t :
  control_sequence u ->
  sub_empty ansi_escape (u ++ t) = sub_empty ansi_escape t.
Proof.
  intros Hu. apply control_sequence_shape in Hu.
  destruct (sequence_nonempty Hu) as [v ->].
  unfold sub_empty. cbn [app sub_go].
  change (ESC :: v ++ t) with ((ESC :: v) ++ t).
  rewrite (match_len_control_sequence t Hu). simpl.
  apply sub_go_skip.
Qed.

Lemma sub_empty_char c s :
  match_len ansi_escape (c :: s) = None ->
  sub_empty ansi_escape (c :: s) = c :: sub_empty ansi_escape s.
Proof. intros H. unfold sub_empty. simpl sub_go. now rewrite H. Qed.

Lemma sub_empty_content t s :
  ~ In ESC t ->
  sub_empty ansi_escape (t ++ s) = t ++ sub_empty ansi_escape s.
Proof.
  induction t as [|c t IH]; intros H; simpl; [reflexivity|].
  rewrite sub_empty_char.
  - f_equal. apply IH. intros G. apply H. now right.
  - apply match_len_not_ESC. intros ->. apply H. now left.
Qed.

Lemma plain_of_sub s r : plain_of s r -> sub_empty ansi_escape s = r.
Proof.
  induction 1 as [|u rest r Hu _ IH|c s r Hc _ IH].
  - reflexivity.
  - now rewrite sub_empty_control.
  - rewrite sub_empty_char; [now rewrite IH|]. now apply match_len_none.
Qed.

Lemma plain_of_total_upto n : forall s,
  (List.length s <= n)%nat -> plain_of s (sub_empty ansi_escape s).
Proof.
  induction n as [|n IH]; intros s Hn.
  - destruct s; [constructor | simpl in Hn; lia].
  - destruct s as [|c s]; [constructor|].
    destruct (match_len ansi_escape (c :: s)) as [k|] eqn:E.
    + unfold match_len in E. apply bt_sound in E.
      destruct E as (u & t & Hs & Hu & _).
      assert (Hu' := Hu). apply control_sequence_shape in Hu'.
      destruct (sequence_nonempty Hu') as [v ->].
      rewrite Hs, sub_empty_control by exact Hu.
      apply plain_seq; [exact Hu|]. apply IH.
      apply (f_equal (@List.length N)) in Hs.
      rewrite List.length_app in Hs. simpl in Hs, Hn. lia.
    + rewrite sub_empty_char by exact E.
      apply plain_chr; [|apply IH; simpl in Hn; lia].
      intros u t Hs Hu.
      destruct (bt_complete Hu t (fun rest =>
                  Some (List.length (c :: s) - List.length rest)%nat)
                  eq_refl) as [a Ha].
      unfold match_len in E. rewrite Hs in E at 1. congruence.
Qed.

Lemma plain_of_total s : plain_of s (sub_empty ansi_escape s).
Proof. now apply (plain_of_total_upto (n := List.length s)). Qed.

Lemma sub_empty_assemble gs :
  Forall segment_ok gs ->
  sub_empty ansi_escape (assemble gs) = content_of gs.
Proof.
  induction 1 as [|g gs Hg _ IH]; [reflexivity|].
  unfold assemble, content_of in *. simpl.
  destruct g as [t|u]; simpl in *.
  - rewrite sub_empty_content by exact Hg. now rewrite IH.
  - rewrite sub_empty_control by exact Hg. exact IH.
Qed.

Lemma sgr_control ps :
  forallb sgr_param ps = true ->
  control_sequence (ESC :: 91%N :: ps ++ [109%N]).
Proof.
  intros H. apply control_sequence_shape.
  apply (@shape_csi ps [] 109%N); [|constructor|reflexivity].
  rewrite forallb_forall in H. apply Forall_forall. intros c Hc.
  specialize (H c Hc). unfold sgr_param in H. apply class_bounds.
  rewrite orb_true_iff, andb_true_iff, !N.leb_le, N.eqb_eq in H. lia.
Qed.

(** C2.  [visible_len s] is the number of characters of [s] with its
    control sequences removed: every string has such a plain form, and
    the length of every plain form of [s] is [visible_len s]; for a
    string assembled from content segments and control sequences it is
    the total length of the content; for a string without the escape
    character it is the length of the string.  The colour and style
    sequences, [ESC [[], digits and semicolons, [m], are control
    sequences. *)
Theorem visible_len_plain :
  (forall s, exists r, plain_of s r) /\
  (forall s r, plain_of s r -> visible_len s = len r) /\
  (forall gs, Forall segment_ok gs ->
     visible_len (assemble gs) = len (content_of gs)) /\
  (forall s, ~ In ESC s -> visible_len s = len s) /\
  (forall ps, forallb sgr_param ps = true ->
     control_sequence (ESC :: 91%N :: ps ++ [109%N])).
Proof.
  repeat split.
  - intros s. exists (sub_empty ansi_escape s). apply plain_of_total.
  - intros s r H. unfold visible_len. now rewrite (plain_of_sub H).
  - intros gs H. unfold visible_len. now rewrite sub_empty_assemble.
  - intros s H. unfold visible_len.
    rewrite <- (app_nil_r s) at 1.
    rewrite sub_empty_content by exact H. now rewrite app_nil_r.
  - intros ps H. now apply sgr_control.
Qed.

Lemma visible_len_plain_witness :
  visible_len (assemble [Control (color "red"); Content (lit "CPU");
                         Control (color "reset"); Content (lit " 42%")])
  = 7%Z.
Proof.
  rewrite (proj1 (proj2 (proj2 visible_len_plain))).
  - reflexivity.
  - repeat constructor; simpl.
    + apply control_sequence_shape.
      apply (@shape_csi (lit "31") [] 109%N);
        [repeat constructor | constructor | reflexivity].
    + intuition discriminate.
    + apply control_sequence_shape.
      apply (@shape_csi (lit "0") [] 109%N);
        [repeat constructor | constructor | reflexivity].
    + intuition discriminate.
Defined.

(** ** [draw_row] *)

Lemma row_padding_max content :
  row_padding content = Z.max 0 ((W - 4) - visible_len content).
Proof.
  unfold row_padding, W.
  destruct (Z.ltb_spec (66 - 2 - visible_len content - 2) 0); lia.
Qed.

(** C3.  [draw_row] pads the content on the right with
    [max(0, (W - 4) - visible_len(content))] spaces and prints: border,
    one space, the content as it is, the padding, one space, border
    (after the left margin of [pr] in [monitor.py], without it in
    [monitorV1.py]).  The padding is zero when the visible width is
    [W - 4], and zero, never negative, when it is larger. *)
Theorem draw_row_padding (content border_color : str) (out : stdout) :
  let pad := Z.max 0 ((W - 4) - visible_len content) in
  let line := border_color ++ [BORDER] ++ color "reset" ++ [SPACE] ++
              content ++ times SPACE pad ++ [SPACE] ++
              border_color ++ [BORDER] ++ color "reset" in
  draw_row content border_color out
    = out ++ [times SPACE PADDING_LEFT ++ line] /\
  MonitorV1.draw_row content border_color out = out ++ [line] /\
  len (times SPACE pad) = pad /\
  (visible_len content = (W - 4)%Z -> pad = 0%Z) /\
  ((W - 4 < visible_len content)%Z -> pad = 0%Z).
Proof.
  intros pad line. subst pad line.
  unfold draw_row, MonitorV1.draw_row, pr, print, row_text.
  rewrite row_padding_max.
  repeat split; try lia.
  apply len_times. lia.
Qed.

Lemma draw_row_padding_witness :
  Z.max 0 ((W - 4) - visible_len (color "green" ++ times DASH 62)) = 0%Z.
Proof.
  apply (proj1 (proj2 (proj2 (proj2
    (draw_row_padding (color "green" ++ times DASH 62) (color "cyan") []))))).
  reflexivity.
Defined.

(** ** [get_color_by_percent] *)

Lemma bind_Ok (A B : Type) (m : res A) (k : A -> res B) b :
  bind m k = Ok b -> exists a, m = Ok a /\ k a = Ok b.
Proof. destruct m as [a|e]; simpl; [eauto | discriminate]. Qed.

Ltac bind_inv H :=
  let a := fresh "x" in
  let E := fresh "E" in
  apply bind_Ok in H; destruct H as (a & E & H); cbv beta in H.

Lemma assoc_In (V : Type) k (d : list (string * V)) v :
  assoc k d = Some v -> In v (map snd d).
Proof.
  induction d as [|[k' v'] d IH]; simpl; [discriminate|].
  destruct (String.eqb k' k); [|auto].
  intros [= ->]. now left.
Qed.

Lemma get_ansi_COLORS o c : get_ansi o = Ok c -> In c (map snd COLORS).
Proof.
  assert (Hw : In (color "white") (map snd COLORS))
    by (apply (assoc_In "white" COLORS); reflexivity).
  destruct o as [| | |s| |]; unfold get_ansi; intros H; try discriminate;
    try (injection H as <-; exact Hw).
  destruct (assoc s COLORS) eqn:E; injection H as <-;
    [exact (assoc_In _ _ E) | exact Hw].
Qed.

Lemma get_color_COLORS cfg p c :
  get_color_by_percent cfg p = Ok c -> In c (map snd COLORS).
Proof.
  unfold get_color_by_percent. intros H.
  bind_inv H. bind_inv H. bind_inv H.
  match type of H with (if ?b then _ else _) = _ => destruct b end.
  - bind_inv H. bind_inv H. exact (get_ansi_COLORS _ H).
  - bind_inv H. bind_inv H. bind_inv H.
    match type of H with (if ?b then _ else _) = _ => destruct b end;
      bind_inv H; bind_inv H; exact (get_ansi_COLORS _ H).
Qed.

Lemma has_Ok o key p :
  has o key p = true -> exists v, getitem o key = Ok v /\ p v = true.
Proof.
  unfold has. destruct (getitem o key) as [v|]; [eauto | discriminate].
Qed.

Lemma py_lt_number x o :
  is_number o = true -> exists b, py_lt x o = Ok b.
Proof.
  unfold py_lt. destruct o as [|[]| | | |]; simpl; try discriminate; eauto.
Qed.

Lemma get_ansi_hashable o : hashable o = true -> exists c, get_ansi o = Ok c.
Proof. destruct o; simpl; try discriminate; eauto. Qed.

Lemma get_color_total cfg p :
  tiers_ready cfg = true -> exists c, get_color_by_percent cfg p = Ok c.
Proof.
  unfold tiers_ready. rewrite andb_true_iff. intros [Hth Hc].
  apply has_Ok in Hth. destruct Hth as (th & Eth & Hth).
  apply has_Ok in Hc. destruct Hc as (cs & Ecs & Hc).
  rewrite andb_true_iff in Hth. destruct Hth as [Hmid Hhigh].
  rewrite !andb_true_iff in Hc. destruct Hc as [[Hlow Hm] Hh].
  apply has_Ok in Hmid, Hhigh, Hlow, Hm, Hh.
  destruct Hmid as (mid & Emid & Nmid), Hhigh as (high & Ehigh & Nhigh).
  destruct Hlow as (lo & Elo & Hlo), Hm as (md & Emd & Hmd),
           Hh as (hi & Ehi & Hhi).
  destruct (py_lt_number p _ Nmid) as [b1 Eb1].
  destruct (py_lt_number p _ Nhigh) as [b2 Eb2].
  unfold get_color_by_percent.
  rewrite Eth. cbn [bind]. rewrite Emid. cbn [bind]. rewrite Eb1. cbn [bind].
  destruct b1.
  - rewrite Ecs. cbn [bind]. rewrite Elo. cbn [bind].
    now apply get_ansi_hashable.
  - rewrite Ehigh. cbn [bind]. rewrite Eb2. cbn [bind].
    destruct b2; rewrite Ecs; cbn [bind].
    + rewrite Emd. cbn [bind]. now apply get_ansi_hashable.
    + rewrite Ehi. cbn [bind]. now apply get_ansi_hashable.
Qed.

(** ** Binary floating point

    Rounding to the nearest double is monotone, depends on the value
    only, and leaves a double as it is. *)

Lemma pow2_pos e : 0 < pow2 e.
Proof. apply Qpower_0_lt. reflexivity. Qed.

Lemma pow2_add a b : pow2 (a + b) == pow2 a * pow2 b.
Proof. apply Qpower_plus. discriminate. Qed.

Lemma pow2_le a b : (a <= b)%Z -> pow2 a <= pow2 b.
Proof. intros H. apply Qpower_le_compat_l; [exact H | discriminate]. Qed.

Lemma pow2_lt a b : (a < b)%Z -> pow2 a < pow2 b.
Proof. intros H. apply Qpower_lt_compat_l; [exact H | reflexivity]. Qed.

Lemma pow2_lt_inv a b : pow2 a < pow2 b -> (a < b)%Z.
Proof. intros H. apply (Qpower_lt_compat_l_inv _ _ _ H). reflexivity. Qed.

Lemma pow2_Z n : (0 <= n)%Z -> pow2 n == inject_Z (2 ^ n).
Proof. intros H. unfold pow2. now rewrite Zpower_Qpower. Qed.

Lemma pow2_cancel e : pow2 e * pow2 (- e) == 1.
Proof. rewrite <- pow2_add, Z.add_opp_diag_r. reflexivity. Qed.

Lemma round_half_even_mono x y :
  x <= y -> (round_half_even x <= round_half_even y)%Z.
Proof.
  destruct x as [n d], y as [m e]. unfold Qle, round_half_even.
  cbn [Qnum Qden]. intros H.
  pose proof (Z.div_mod n (Z.pos d) ltac:(lia)) as Hn.
  pose proof (Z.mod_pos_bound n (Z.pos d) ltac:(lia)) as Hrn.
  pose proof (Z.div_mod m (Z.pos e) ltac:(lia)) as Hm.
  pose proof (Z.mod_pos_bound m (Z.pos e) ltac:(lia)) as Hrm.
  set (fn := (n / Z.pos d)%Z) in *. set (rn := (n mod Z.pos d)%Z) in *.
  set (fm := (m / Z.pos e)%Z) in *. set (rm := (m mod Z.pos e)%Z) in *.
  assert (Hf : (fn <= fm)%Z).
  { destruct (Z_le_gt_dec fn fm) as [Hle|Hgt]; [exact Hle | exfalso].
    assert ((fm + 1) * (Z.pos d * Z.pos e) <= fn * (Z.pos d * Z.pos e))%Z
      by (apply Z.mul_le_mono_nonneg_r; lia).
    assert (rm * Z.pos d < Z.pos e * Z.pos d)%Z
      by (apply Z.mul_lt_mono_pos_r; lia).
    assert (0 <= rn * Z.pos e)%Z by (apply Z.mul_nonneg_nonneg; lia).
    rewrite Hn, Hm in H. lia. }
  destruct (Z.eq_dec fn fm) as [Heq|Hne].
  - assert (Hr : (rn * Z.pos e <= rm * Z.pos d)%Z).
    { rewrite Hn, Hm, Heq in H. lia. }
    rewrite <- Heq.
    destruct (Z.compare_spec (2 * rn) (Z.pos d));
      destruct (Z.compare_spec (2 * rm) (Z.pos e));
      destruct (Z.even fn); try lia; nia.
  - destruct (Z.compare_spec (2 * rn) (Z.pos d));
      destruct (Z.compare_spec (2 * rm) (Z.pos e));
      destruct (Z.even fn); destruct (Z.even fm); lia.
Qed.

Lemma round_half_even_comp x y :
  x == y -> round_half_even x = round_half_even y.
Proof.
  intros H. apply Z.le_antisymm; apply round_half_even_mono;
    rewrite H; apply Qle_refl.
Qed.

Lemma round_half_even_Z z : round_half_even (inject_Z z) = z.
Proof.
  unfold round_half_even, inject_Z. cbn [Qnum Qden].
  rewrite Z.div_1_r, Z.mod_1_r. reflexivity.
Qed.

Lemma round_half_even_low q z :
  inject_Z z <= q -> q < inject_Z z + (1 # 2) -> round_half_even q = z.
Proof.
  destruct q as [n d]. unfold Qle, Qlt, round_half_even, Qplus, inject_Z.
  cbn [Qnum Qden]. intros Hlo Hhi.
  pose proof (Z.div_mod n (Z.pos d) ltac:(lia)) as Hn.
  pose proof (Z.mod_pos_bound n (Z.pos d) ltac:(lia)) as Hrn.
  set (f := (n / Z.pos d)%Z) in *. set (r := (n mod Z.pos d)%Z) in *.
  assert (f = z) by nia. subst z.
  destruct (Z.compare_spec (2 * r) (Z.pos d)); try reflexivity; nia.
Qed.

Lemma ilog2_spec x : 0 < x -> pow2 (ilog2 x) <= x /\ x < pow2 (ilog2 x + 1).
Proof.
  intros Hx. unfold ilog2.
  destruct x as [n d]. cbn [Qnum Qden].
  assert (Hn : (0 < n)%Z) by (unfold Qlt in Hx; simpl in Hx; lia).
  pose proof (Z.log2_spec n Hn) as [Hn1 Hn2].
  pose proof (Z.log2_spec (Z.pos d) ltac:(lia)) as [Hd1 Hd2].
  pose proof (Z.log2_nonneg n) as Ha.
  pose proof (Z.log2_nonneg (Z.pos d)) as Hb.
  set (a := Z.log2 n) in *. set (b := Z.log2 (Z.pos d)) in *.
  assert (Hup : n # d < pow2 (a - b + 1)).
  { apply Qmult_lt_r with (z := pow2 b); [apply pow2_pos|].
    rewrite <- pow2_add. replace (a - b + 1 + b)%Z with (Z.succ a) by lia.
    rewrite !pow2_Z by lia.
    unfold Qlt, Qmult, inject_Z. cbn [Qnum Qden].
    rewrite Pos.mul_1_r, Z.mul_1_r.
    apply Z.le_lt_trans with (n * Z.pos d)%Z.
    - apply Z.mul_le_mono_nonneg_l; lia.
    - apply Z.mul_lt_mono_pos_r; lia. }
  assert (Hlow : pow2 (a - b - 1) <= n # d).
  { apply Qmult_le_r with (z := pow2 (b + 1)); [apply pow2_pos|].
    rewrite <- pow2_add. replace (a - b - 1 + (b + 1))%Z with a by lia.
    rewrite !pow2_Z by lia.
    unfold Qle, Qmult, inject_Z. cbn [Qnum Qden].
    rewrite Pos.mul_1_r, Z.mul_1_r.
    apply Z.le_trans with (n * Z.pos d)%Z.
    - apply Z.mul_le_mono_nonneg_r; lia.
    - apply Z.mul_le_mono_nonneg_l; lia. }
  destruct (Qle_bool (pow2 (a - b)) (n # d)) eqn:E.
  - apply Qle_bool_iff in E. split; [exact E | exact Hup].
  - split; [exact Hlow|].
    replace (a - b - 1 + 1)%Z with (a - b)%Z by lia.
    apply Qnot_le_lt. intros H. apply Qle_bool_iff in H. congruence.
Qed.

Lemma ilog2_unique x k : pow2 k <= x -> x < pow2 (k + 1) -> ilog2 x = k.
Proof.
  intros Hlo Hhi.
  assert (Hx : 0 < x)
    by (apply Qlt_le_trans with (pow2 k); [apply pow2_pos | exact Hlo]).
  destruct (ilog2_spec Hx) as [Hl Hh].
  assert (ilog2 x < k + 1)%Z
    by (apply pow2_lt_inv; apply Qle_lt_trans with x; assumption).
  assert (k < ilog2 x + 1)%Z
    by (apply pow2_lt_inv; apply Qle_lt_trans with x; assumption).
  lia.
Qed.

Lemma ilog2_mono x y : 0 < x -> x <= y -> (ilog2 x <= ilog2 y)%Z.
Proof.
  intros Hx Hxy.
  assert (Hy : 0 < y) by (apply Qlt_le_trans with x; assumption).
  destruct (ilog2_spec Hx) as [Hl _]. destruct (ilog2_spec Hy) as [_ Hh].
  assert (ilog2 x < ilog2 y + 1)%Z.
  { apply pow2_lt_inv. apply Qle_lt_trans with x; [exact Hl|].
    apply Qle_lt_trans with y; assumption. }
  lia.
Qed.

Lemma ilog2_comp x y : 0 < x -> x == y -> ilog2 x = ilog2 y.
Proof.
  intros Hx Hxy. destruct (ilog2_spec Hx) as [Hl Hh]. symmetry.
  apply ilog2_unique; rewrite <- Hxy; assumption.
Qed.

Lemma scale_mono x y e : x <= y -> x * pow2 e <= y * pow2 e.
Proof.
  intros H. apply Qmult_le_compat_r; [exact H | apply Qlt_le_weak, pow2_pos].
Qed.

Lemma round_pos_comp x y : 0 < x -> x == y -> round_pos x == round_pos y.
Proof.
  intros Hx Hxy. unfold round_pos. rewrite (ilog2_comp Hx Hxy).
  rewrite (@round_half_even_comp (x * pow2 (- Z.max (ilog2 y - 52) (-1074)))
             (y * pow2 (- Z.max (ilog2 y - 52) (-1074))))
    by (rewrite Hxy; reflexivity).
  reflexivity.
Qed.

Lemma round_pos_nonneg x : 0 < x -> 0 <= round_pos x.
Proof.
  intros Hx. unfold round_pos.
  apply Qmult_le_0_compat; [|apply Qlt_le_weak, pow2_pos].
  change 0 with (inject_Z 0). rewrite <- Zle_Qle.
  rewrite <- (round_half_even_Z 0). apply round_half_even_mono.
  apply Qmult_le_0_compat; [apply Qlt_le_weak, Hx | apply Qlt_le_weak, pow2_pos].
Qed.

(** Within a binade the result stays between the powers of two. *)
Lemma round_pos_upper x :
  0 < x -> round_pos x <= pow2 (Z.max (ilog2 x - 52) (-1074) + 53).
Proof.
  intros Hx. unfold round_pos. set (e := Z.max (ilog2 x - 52) (-1074)).
  destruct (ilog2_spec Hx) as [_ Hh].
  replace (e + 53)%Z with (53 + e)%Z by lia.
  rewrite (pow2_add 53 e).
  apply Qmult_le_compat_r; [|apply Qlt_le_weak, pow2_pos].
  rewrite (@pow2_Z 53 ltac:(lia)). rewrite <- Zle_Qle.
  rewrite <- (round_half_even_Z (2 ^ 53)). apply round_half_even_mono.
  rewrite <- (@pow2_Z 53 ltac:(lia)).
  apply Qmult_le_r with (z := pow2 e); [apply pow2_pos|].
  rewrite <- Qmult_assoc, (Qmult_comm (pow2 (- e))), pow2_cancel, Qmult_1_r.
  rewrite <- pow2_add. apply Qlt_le_weak. apply Qlt_le_trans with (1 := Hh).
  apply pow2_le. lia.
Qed.

Lemma round_pos_lower x :
  0 < x -> (-1074 <= ilog2 x - 52)%Z -> pow2 (ilog2 x) <= round_pos x.
Proof.
  intros Hx He. unfold round_pos. rewrite Z.max_l by lia.
  destruct (ilog2_spec Hx) as [Hl _].
  set (e := (ilog2 x - 52)%Z).
  replace (ilog2 x) with (52 + e)%Z at 1 by (unfold e; lia).
  rewrite (pow2_add 52 e).
  apply Qmult_le_compat_r; [|apply Qlt_le_weak, pow2_pos].
  rewrite (@pow2_Z 52 ltac:(lia)). rewrite <- Zle_Qle.
  rewrite <- (round_half_even_Z (2 ^ 52)). apply round_half_even_mono.
  rewrite <- (@pow2_Z 52 ltac:(lia)).
  apply Qmult_le_r with (z := pow2 e); [apply pow2_pos|].
  rewrite <- Qmult_assoc, (Qmult_comm (pow2 (- e))), pow2_cancel, Qmult_1_r.
  rewrite <- pow2_add. replace (52 + e)%Z with (ilog2 x) by (unfold e; lia).
  exact Hl.
Qed.

Lemma round_pos_mono x y : 0 < x -> x <= y -> round_pos x <= round_pos y.
Proof.
  intros Hx Hxy.
  assert (Hy : 0 < y) by (apply Qlt_le_trans with x; assumption).
  pose proof (ilog2_mono Hx Hxy) as Hlg.
  destruct (Z.eq_dec (Z.max (ilog2 x - 52) (-1074))
                     (Z.max (ilog2 y - 52) (-1074))) as [He|He].
  - unfold round_pos. rewrite He.
    apply Qmult_le_compat_r; [|apply Qlt_le_weak, pow2_pos].
    rewrite <- Zle_Qle. apply round_half_even_mono. now apply scale_mono.
  - apply Qle_trans with (pow2 (ilog2 y)).
    + apply Qle_trans with (1 := round_pos_upper Hx). apply pow2_le. lia.
    + apply round_pos_lower; [exact Hy | lia].
Qed.

Lemma round_pos_exact m t :
  (0 < m < 2 ^ 53)%Z -> (-1074 <= t)%Z ->
  round_pos (inject_Z m * pow2 t) == inject_Z m * pow2 t.
Proof.
  intros Hm Ht.
  pose proof (Z.log2_spec m ltac:(lia)) as [Hl Hh].
  pose proof (Z.log2_nonneg m) as Ha.
  assert (Ha53 : (Z.log2 m < 53)%Z) by (apply Z.log2_lt_pow2; lia).
  assert (Hlg : ilog2 (inject_Z m * pow2 t) = (Z.log2 m + t)%Z).
  { apply ilog2_unique.
    - rewrite pow2_add. apply Qmult_le_compat_r; [|apply Qlt_le_weak, pow2_pos].
      rewrite pow2_Z by lia. now rewrite <- Zle_Qle.
    - replace (Z.log2 m + t + 1)%Z with (Z.succ (Z.log2 m) + t)%Z by lia.
      rewrite pow2_add. apply Qmult_lt_compat_r; [apply pow2_pos|].
      rewrite pow2_Z by lia. now rewrite <- Zlt_Qlt. }
  unfold round_pos. rewrite Hlg.
  set (e := Z.max (Z.log2 m + t - 52) (-1074)).
  assert (He : (e <= t)%Z) by (unfold e; lia).
  assert (Hs : inject_Z m * pow2 t * pow2 (- e) == inject_Z (m * 2 ^ (t - e))).
  { rewrite <- Qmult_assoc, <- pow2_add, inject_Z_mult.
    replace (t + - e)%Z with (t - e)%Z by lia.
    rewrite pow2_Z by lia. reflexivity. }
  rewrite (round_half_even_comp Hs), round_half_even_Z.
  rewrite inject_Z_mult, <- pow2_Z by lia.
  rewrite <- Qmult_assoc, <- pow2_add.
  replace (t - e + e)%Z with t by lia. reflexivity.
Qed.

Lemma float_round_pos x : 0 < x -> float_round x = round_pos x.
Proof.
  intros H. unfold float_round.
  assert (E : (x ?= 0) = Gt) by (apply Qgt_alt; exact H). now rewrite E.
Qed.

Lemma float_round_neg x : x < 0 -> float_round x = - round_pos (- x).
Proof.
  intros H. unfold float_round.
  assert (E : (x ?= 0) = Lt) by (apply Qlt_alt; exact H). now rewrite E.
Qed.

Lemma float_round_zero x : x == 0 -> float_round x = 0.
Proof.
  intros H. unfold float_round.
  assert (E : (x ?= 0) = Eq) by (apply Qeq_alt; exact H). now rewrite E.
Qed.

Lemma Qopp_pos x : x < 0 -> 0 < - x.
Proof. intros H. apply Qopp_lt_compat in H. exact H. Qed.

Lemma float_round_mono x y : x <= y -> float_round x <= float_round y.
Proof.
  intros Hxy.
  destruct (Q_dec x 0) as [[Hx|Hx]|Hx]; destruct (Q_dec y 0) as [[Hy|Hy]|Hy].
  - rewrite (float_round_neg Hx), (float_round_neg Hy).
    apply Qopp_le_compat. apply round_pos_mono; [now apply Qopp_pos|].
    now apply Qopp_le_compat.
  - rewrite (float_round_neg Hx), (float_round_pos Hy).
    apply Qle_trans with 0; [|now apply round_pos_nonneg].
    change 0 with (- 0). apply Qopp_le_compat. apply round_pos_nonneg.
    now apply Qopp_pos.
  - rewrite (float_round_neg Hx), (float_round_zero Hy).
    change 0 with (- 0). apply Qopp_le_compat. apply round_pos_nonneg.
    now apply Qopp_pos.
  - exfalso. apply (Qlt_irrefl 0). apply Qlt_le_trans with x; [exact Hx|].
    apply Qle_trans with y; [exact Hxy | now apply Qlt_le_weak].
  - rewrite (float_round_pos Hx), (float_round_pos Hy).
    now apply round_pos_mono.
  - exfalso. apply (Qlt_irrefl 0). apply Qlt_le_trans with x; [exact Hx|].
    rewrite <- Hy. exact Hxy.
  - exfalso. apply (Qlt_irrefl 0). apply Qle_lt_trans with y; [|exact Hy].
    rewrite <- Hx. exact Hxy.
  - rewrite (float_round_zero Hx), (float_round_pos Hy).
    now apply round_pos_nonneg.
  - rewrite (float_round_zero Hx), (float_round_zero Hy). apply Qle_refl.
Qed.

Lemma float_round_comp x y : x == y -> float_round x == float_round y.
Proof.
  intros H. apply Qle_antisym; apply float_round_mono; rewrite H; apply Qle_refl.
Qed.

Lemma float_round_exact m t :
  (Z.abs m < 2 ^ 53)%Z -> (-1074 <= t)%Z ->
  float_round (inject_Z m * pow2 t) == inject_Z m * pow2 t.
Proof.
  intros Hm Ht.
  destruct (Z.lt_trichotomy m 0) as [Hneg|[->|Hpos]].
  - assert (Hx : inject_Z m * pow2 t < 0).
    { rewrite <- (Qmult_0_l (pow2 t)).
      apply Qmult_lt_compat_r; [apply pow2_pos|].
      change 0 with (inject_Z 0). now rewrite <- Zlt_Qlt. }
    rewrite (float_round_neg Hx).
    assert (Heq : - (inject_Z m * pow2 t) == inject_Z (- m) * pow2 t)
      by (rewrite inject_Z_opp; ring).
    rewrite (round_pos_comp (Qopp_pos Hx) Heq).
    rewrite round_pos_exact by lia. rewrite inject_Z_opp. ring.
  - rewrite float_round_zero by ring. ring.
  - assert (Hx : 0 < inject_Z m * pow2 t).
    { rewrite <- (Qmult_0_l (pow2 t)).
      apply Qmult_lt_compat_r; [apply pow2_pos|].
      change 0 with (inject_Z 0). now rewrite <- Zlt_Qlt. }
    rewrite (float_round_pos Hx). apply round_pos_exact; lia.
Qed.

Lemma float_round_Z z :
  (Z.abs z < 2 ^ 53)%Z -> float_round (inject_Z z) == inject_Z z.
Proof.
  intros H. pose proof (@float_round_exact z 0 H ltac:(lia)) as E.
  assert (Hz : inject_Z z * pow2 0 == inject_Z z)
    by (change (pow2 0) with 1; ring).
  apply Qeq_trans with (float_round (inject_Z z * pow2 0)).
  - apply float_round_comp. symmetry. exact Hz.
  - rewrite E. exact Hz.
Qed.

(** ** [draw_bar] *)

Lemma bar_filled_clamp p L :
  (0 <= L)%Z ->
  bar_filled p L = clamp (Qfloor (float_round (inject_Z L * p) / 100)) 0 L.
Proof.
  intros H. unfold bar_filled, float_floordiv, float_mul, clamp. lia.
Qed.

Lemma inject_Z_nonneg L : (0 <= L)%Z -> 0 <= inject_Z L.
Proof. intros H. change 0 with (inject_Z 0). now rewrite <- Zle_Qle. Qed.

Lemma scaled_nonpos p L :
  (0 <= L)%Z -> p <= 0 ->
  (Qfloor (float_round (inject_Z L * p) / 100) <= 0)%Z.
Proof.
  intros HL Hp. change 0%Z with (Qfloor 0). apply Qfloor_resp_le.
  pose proof (inject_Z_nonneg HL) as HL'.
  unfold Qdiv. rewrite <- (Qmult_0_l (/ 100)).
  apply Qmult_le_compat_r; [|discriminate].
  change 0 with (float_round 0). apply float_round_mono.
  rewrite <- (Qmult_0_r (inject_Z L)).
  rewrite !(Qmult_comm (inject_Z L)).
  now apply Qmult_le_compat_r.
Qed.

Lemma scaled_full p L :
  (0 <= L)%Z -> (100 * L < 2 ^ 53)%Z -> 100 <= p ->
  (L <= Qfloor (float_round (inject_Z L * p) / 100))%Z.
Proof.
  intros HL Hbig Hp. rewrite <- (Qfloor_Z L) at 1. apply Qfloor_resp_le.
  pose proof (inject_Z_nonneg HL) as HL'.
  apply Qle_shift_div_l; [reflexivity|].
  assert (Hx : float_round (inject_Z (L * 100)) == inject_Z L * 100).
  { rewrite float_round_Z by lia. now rewrite inject_Z_mult. }
  rewrite <- Hx. apply float_round_mono.
  rewrite inject_Z_mult. change (inject_Z 100) with 100.
  rewrite !(Qmult_comm (inject_Z L)).
  now apply Qmult_le_compat_r.
Qed.

(** Once the colour is found, [draw_bar] returns the bracketed bar. *)
Lemma draw_bar_returns cfg p L c :
  get_color_by_percent cfg p = Ok c ->
  draw_bar cfg p L
    = Ok (lit "[" ++ c ++
          (times BLOCK (bar_filled p L) ++ times DASH (L - bar_filled p L)) ++
          color "reset" ++ lit "]").
Proof. intros Hc. unfold draw_bar. rewrite Hc. reflexivity. Qed.

(** C4, as the code has it.  With a configuration whose tiers can be
    looked up, a length [0 <= L] that a double holds a hundredfold, and
    a percentage whose product with [L] is a finite float, [draw_bar]
    returns an opening bracket, the colour of the percentage, [filled]
    block glyphs, [L - filled] filler glyphs, the reset sequence and a
    closing bracket, where [filled] is
    [clamp(floor(fl(L * p) / 100), 0, L)] and [fl] rounds the product
    to the nearest double: [L] glyphs in all, none of them filled when
    [p <= 0], all of them when [p >= 100].  When the product is a
    double as it stands, as for every whole percentage, [filled] is
    [clamp(floor(L * p / 100), 0, L)]. *)
Theorem draw_bar_gauge (cfg : value) (p : Q) (L : Z) :
  tiers_ready cfg = true -> (0 <= L)%Z -> (100 * L < 2 ^ 53)%Z ->
  finite (float_mul (inject_Z L) p) ->
  let filled := clamp (Qfloor (float_round (inject_Z L * p) / 100)) 0 L in
  exists c,
    get_color_by_percent cfg p = Ok c /\
    draw_bar cfg p L
      = Ok (lit "[" ++ c ++ times BLOCK filled ++ times DASH (L - filled) ++
            color "reset" ++ lit "]") /\
    (0 <= filled <= L)%Z /\
    len (times BLOCK filled ++ times DASH (L - filled)) = L /\
    (p <= 0 -> filled = 0%Z) /\
    (100 <= p -> filled = L) /\
    (float_round (inject_Z L * p) == inject_Z L * p ->
     filled = clamp (Qfloor (inject_Z L * p / 100)) 0 L) /\
    (forall z : Z, p == inject_Z z -> (Z.abs (L * z) < 2 ^ 53)%Z ->
     filled = clamp (L * z / 100) 0 L).
Proof.
  intros Hcfg HL Hbig _ filled.
  destruct (@get_color_total cfg p Hcfg) as [c Hc].
  assert (Hrange : (0 <= filled <= L)%Z) by (unfold filled, clamp; lia).
  exists c. split; [exact Hc|].
  split; [|split; [exact Hrange|split; [|split; [|split; [|split]]]]].
  - rewrite (@draw_bar_returns cfg p L c Hc).
    rewrite bar_filled_clamp by exact HL. fold filled.
    rewrite <- !app_assoc. reflexivity.
  - rewrite len_app, !len_times by lia. lia.
  - intros Hp. pose proof (@scaled_nonpos p L HL Hp). unfold filled, clamp. lia.
  - intros Hp. pose proof (@scaled_full p L HL Hbig Hp).
    unfold filled, clamp. lia.
  - intros Hex. unfold filled. now rewrite Hex.
  - intros z Hz Hsmall. unfold filled.
    assert (Hx : float_round (inject_Z L * p) / 100 == (L * z # 100)).
    { assert (Hp : inject_Z L * p == inject_Z (L * z))
        by (rewrite Hz, inject_Z_mult; reflexivity).
      rewrite (@float_round_comp _ _ Hp), (@float_round_Z _ Hsmall).
      rewrite (Qmake_Qdiv (L * z) 100). reflexivity. }
    rewrite Hx. reflexivity.
Qed.

Lemma draw_bar_gauge_witness :
  exists c,
    get_color_by_percent DEFAULT_CONFIG 150 = Ok c /\
    draw_bar DEFAULT_CONFIG 150 5
      = Ok (lit "[" ++ c ++ times BLOCK 5 ++ times DASH (5 - 5) ++
            color "reset" ++ lit "]") /\
    (0 <= 5 <= 5)%Z /\
    len (times BLOCK 5 ++ times DASH (5 - 5)) = 5%Z /\
    (150 <= 0 -> 5%Z = 0%Z) /\
    (100 <= 150 -> 5%Z = 5%Z) /\
    (float_round (inject_Z 5 * 150) == inject_Z 5 * 150 ->
     5%Z = clamp (Qfloor (inject_Z 5 * 150 / 100)) 0 5) /\
    (forall z : Z, 150 == inject_Z z -> (Z.abs (5 * z) < 2 ^ 53)%Z ->
     5%Z = clamp (5 * z / 100) 0 5).
Proof.
  apply (@draw_bar_gauge DEFAULT_CONFIG 150 5);
    [reflexivity | lia | lia | reflexivity].
Defined.

(** C4, as it is stated, fails at [L = 15] and the percentage
    [46.666666666666664]: the exact product is just below 700, so the
    stated count is 6, but the float product is [700.0] and [draw_bar]
    fills 7 glyphs. *)
Lemma draw_bar_gauge_counterexample :
  clamp (Qfloor (inject_Z 15 * P46 / 100)) 0 15 = 6%Z /\
  bar_filled P46 15 = 7%Z /\
  draw_bar DEFAULT_CONFIG P46 15
    = Ok (lit "[" ++ color "green" ++ times BLOCK 7 ++ times DASH 8 ++
          color "reset" ++ lit "]").
Proof. repeat split; vm_compute; reflexivity. Qed.

(** ** The width of a gauge *)

Lemma COLORS_control c : In c (map snd COLORS) -> control_sequence c.
Proof.
  intros H. apply control_sequence_shape.
  simpl in H.
  repeat (destruct H as [<-|H];
    [ first
        [ apply (@shape_csi (lit "0") [] 109%N)
        | apply (@shape_csi (lit "36") [] 109%N)
        | apply (@shape_csi (lit "32") [] 109%N)
        | apply (@shape_csi (lit "33") [] 109%N)
        | apply (@shape_csi (lit "31") [] 109%N)
        | apply (@shape_csi (lit "34") [] 109%N)
        | apply (@shape_csi (lit "35") [] 109%N)
        | apply (@shape_csi (lit "37") [] 109%N)
        | apply (@shape_csi (lit "1") [] 109%N) ];
      [repeat constructor | constructor | reflexivity]
    | ]).
  contradiction.
Qed.

Lemma visible_len_gauge c n m :
  control_sequence c -> (0 <= n)%Z -> (0 <= m)%Z ->
  visible_len (lit "[" ++ c ++ (times BLOCK n ++ times DASH m) ++
               color "reset" ++ lit "]") = (n + m + 2)%Z.
Proof.
  intros Hc Hn Hm. unfold visible_len.
  rewrite sub_empty_content by (simpl; intuition discriminate).
  rewrite sub_empty_control by exact Hc.
  rewrite sub_empty_content.
  - rewrite sub_empty_control
      by (apply COLORS_control; apply (assoc_In "reset" COLORS); reflexivity).
    rewrite !len_app, !len_times by lia.
    change (len (lit "[")) with 1%Z.
    change (len (sub_empty ansi_escape (lit "]"))) with 1%Z. lia.
  - intros H. apply in_app_or in H.
    destruct H as [H|H]; apply In_times in H; discriminate.
Qed.



(** ** [get_size] *)

Lemma pow1024_S k : pow1024 (S k) == factor * pow1024 k.
Proof.
  unfold pow1024, factor. rewrite Nat2Z.inj_succ, Z.pow_succ_r by lia.
  rewrite inject_Z_mult. reflexivity.
Qed.

Lemma pow1024_pos k : 0 < pow1024 k.
Proof.
  unfold pow1024. change 0 with (inject_Z 0). rewrite <- Zlt_Qlt.
  apply Z.pow_pos_nonneg; lia.
Qed.

Lemma Qlt_bool_true x y : x < y -> Qlt_bool x y = true.
Proof.
  intros H. unfold Qlt_bool. destruct (Qle_bool y x) eqn:E; [|reflexivity].
  apply Qle_bool_imp_le in E. exfalso. exact (Qlt_not_le _ _ H E).
Qed.

Lemma Qlt_bool_false x y : y <= x -> Qlt_bool x y = false.
Proof.
  intros H. unfold Qlt_bool. apply Qle_bool_iff in H. now rewrite H.
Qed.

Lemma factor_le_pow k : factor <= pow1024 (S k).
Proof.
  rewrite pow1024_S. rewrite <- (Qmult_1_r factor) at 1.
  rewrite !(Qmult_comm factor).
  apply Qmult_le_compat_r; [|discriminate].
  unfold pow1024. change 1 with (inject_Z 1). rewrite <- Zle_Qle.
  pose proof (Z.pow_pos_nonneg 1024 (Z.of_nat k)). lia.
Qed.

Lemma div_factor_lower b k : pow1024 (S k) <= b -> pow1024 k <= b / factor.
Proof.
  intros H. apply Qle_shift_div_l; [reflexivity|].
  rewrite Qmult_comm, <- pow1024_S. exact H.
Qed.

Lemma div_factor_upper b k : b < pow1024 (S k) -> b / factor < pow1024 k.
Proof.
  intros H. apply Qlt_shift_div_r; [reflexivity|].
  rewrite Qmult_comm, <- pow1024_S. exact H.
Qed.

Lemma unit_floor_div b k : unit_floor (S k) <= b -> unit_floor k <= b / factor.
Proof.
  intros H. apply div_factor_lower in H.
  destruct k as [|k]; [|exact H].
  simpl. apply Qle_trans with (pow1024 0);
    [apply Qlt_le_weak, pow1024_pos | exact H].
Qed.

Lemma pow1024_pow2 k : pow1024 k == pow2 (10 * Z.of_nat k).
Proof.
  unfold pow1024. rewrite (@pow2_Z (10 * Z.of_nat k) ltac:(lia)).
  rewrite Z.pow_mul_r by lia. reflexivity.
Qed.

Lemma float_round_pow1024 k : float_round (pow1024 k) == pow1024 k.
Proof.
  assert (H : pow1024 k == inject_Z 1 * pow2 (10 * Z.of_nat k))
    by (rewrite pow1024_pow2; ring).
  rewrite (@float_round_comp _ _ H).
  rewrite (@float_round_exact 1 (10 * Z.of_nat k)) by lia.
  symmetry. exact H.
Qed.

Lemma truediv_lower b k :
  pow1024 (S k) <= b -> pow1024 k <= float_truediv b factor.
Proof.
  intros H. unfold float_truediv. rewrite <- (float_round_pow1024 k).
  apply float_round_mono. now apply div_factor_lower.
Qed.

(** Division by 1024 of a double with room below its last place is
    exact. *)
Lemma truediv_exact t b :
  (-1074 <= t - 10)%Z -> dyadic t b ->
  float_truediv b factor == b / factor /\ dyadic (t - 10) (b / factor).
Proof.
  intros Ht (m & Hm & Hb).
  assert (Hq : b / factor == inject_Z m * pow2 (t - 10)).
  { rewrite Hb. unfold Zminus. rewrite pow2_add.
    change (pow2 (- (10))) with (/ factor). field. discriminate. }
  split; [|exists m; split; [exact Hm | exact Hq]].
  unfold float_truediv. rewrite (@float_round_comp _ _ Hq).
  rewrite (@float_round_exact m (t - 10) Hm Ht). symmetry. exact Hq.
Qed.

Lemma dyadic_comp t x y : x == y -> dyadic t x -> dyadic t y.
Proof.
  intros H (m & Hm & Hx). exists m. split; [exact Hm|]. now rewrite <- H.
Qed.

Lemma Qlt_bool_comp x y : x == y -> Qlt_bool x 0 = Qlt_bool y 0.
Proof. intros H. unfold Qlt_bool. now rewrite H. Qed.

Lemma fmt_2f_comp x y : x == y -> fmt_2f x = fmt_2f y.
Proof.
  intros H. unfold fmt_2f.
  rewrite (@round_half_even_comp (Qabs x * 100) (Qabs y * 100))
    by (rewrite H; reflexivity).
  now rewrite (Qlt_bool_comp H).
Qed.

Lemma scaled_comp : forall k b b', b == b' -> scaled b k == scaled b' k.
Proof.
  induction k as [|k IH]; intros b b' H; [exact H|].
  cbn [scaled]. apply IH. unfold float_truediv. apply float_round_comp.
  now rewrite H.
Qed.

Lemma scaled_exact : forall k t b,
  (-1074 <= t - 10 * Z.of_nat k)%Z -> dyadic t b ->
  scaled b k == b / pow1024 k.
Proof.
  induction k as [|k IH]; intros t b Ht Hb.
  - cbn [scaled]. unfold pow1024. change (inject_Z (1024 ^ Z.of_nat 0)) with 1.
    field.
  - cbn [scaled].
    destruct (@truediv_exact t b ltac:(lia) Hb) as [Hq Hd].
    rewrite (@scaled_comp k _ _ Hq).
    rewrite (IH (t - 10)%Z (b / factor) ltac:(lia) Hd).
    rewrite pow1024_S. field. split.
    + intros H. pose proof (pow1024_pos k) as Hp. rewrite H in Hp.
      exact (Qlt_irrefl _ Hp).
    + discriminate.
Qed.

(** Falling off the end of the unit list. *)
Lemma get_size_loop_None suffix : forall us b,
  pow1024 (List.length us) <= b -> get_size_loop us b suffix = None.
Proof.
  induction us as [|u us IH]; intros b H; [reflexivity|].
  simpl. rewrite Qlt_bool_false.
  - apply IH. now apply truediv_lower.
  - apply Qle_trans with (pow1024 (S (List.length us)));
      [apply factor_le_pow | exact H].
Qed.

Lemma get_size_None b : pow1024 6 <= b -> get_size b = None.
Proof. intros H. unfold get_size. now apply get_size_loop_None. Qed.

(** The loop stops at the first unit that finds the value below 1024. *)
Lemma get_size_loop_scaled suffix : forall k us b,
  (k < List.length us)%nat ->
  (forall j, (j < k)%nat -> factor <= scaled b j) -> scaled b k < factor ->
  get_size_loop us b suffix
    = Some (fmt_2f (scaled b k) ++ lit (nth k us ""%string) ++ suffix).
Proof.
  induction k as [|k IH]; intros us b Hk Hge Hlt;
    (destruct us as [|u us]; [simpl in Hk; lia|]).
  - cbn [scaled] in *. simpl. now rewrite (Qlt_bool_true Hlt).
  - assert (Hb : factor <= b) by (apply (Hge 0%nat); lia).
    simpl get_size_loop. rewrite (Qlt_bool_false Hb).
    cbn [scaled nth]. apply IH.
    + simpl in Hk. lia.
    + intros j Hj. apply (Hge (S j)). lia.
    + exact Hlt.
Qed.

(** On a double that the divisions leave exact, the unit is the one of
    the magnitude. *)
Lemma get_size_loop_unit suffix : forall k us b t,
  (k < List.length us)%nat ->
  (-1074 <= t - 10 * Z.of_nat k)%Z -> dyadic t b ->
  unit_floor k <= b -> b < pow1024 (S k) ->
  get_size_loop us b suffix
    = Some (fmt_2f (b / pow1024 k) ++ lit (nth k us ""%string) ++ suffix).
Proof.
  induction k as [|k IH]; intros us b t Hk Ht Hd Hlo Hhi;
    (destruct us as [|u us]; [simpl in Hk; lia|]).
  - assert (Hb : b < factor) by exact Hhi.
    simpl. rewrite (Qlt_bool_true Hb).
    rewrite (@fmt_2f_comp (b / pow1024 0) b); [reflexivity|].
    unfold pow1024. change (inject_Z (1024 ^ Z.of_nat 0)) with 1. field.
  - assert (Hb : factor <= b).
    { apply Qle_trans with (pow1024 (S k)); [apply factor_le_pow|exact Hlo]. }
    simpl get_size_loop. rewrite (Qlt_bool_false Hb).
    destruct (@truediv_exact t b ltac:(lia) Hd) as [Hq Hd'].
    symmetry in Hq.
    rewrite (IH us (float_truediv b factor) (t - 10)%Z).
    + cbn [nth].
      rewrite (@fmt_2f_comp (float_truediv b factor / pow1024 k)
                            (b / pow1024 (S k))); [reflexivity|].
      rewrite <- Hq, pow1024_S. field. split.
      * intros H. pose proof (pow1024_pos k) as Hp. rewrite H in Hp.
        exact (Qlt_irrefl _ Hp).
      * discriminate.
    + simpl in Hk. lia.
    + lia.
    + exact (dyadic_comp Hq Hd').
    + rewrite <- Hq. now apply unit_floor_div.
    + rewrite <- Hq. now apply div_factor_upper.
Qed.

Lemma dyadic_Z n : (Z.abs n < 2 ^ 53)%Z -> dyadic 0 (inject_Z n).
Proof.
  intros H. exists n. split; [exact H|]. change (pow2 0) with 1. ring.
Qed.

(** Where the rounding shows: an integer above [2 ** 53] whose quotient
    rounds up past the half cent, the last integer that is formatted
    and the first that is not. *)
Lemma get_size_rounded :
  get_size (inject_Z 9024087753343631) = Some (lit "8.02PB") /\
  get_size (inject_Z (2 ^ 60 - 65)) = Some (lit "1024.00PB") /\
  get_size (inject_Z (2 ^ 60 - 64)) = None.
Proof. repeat split; vm_compute; reflexivity. Qed.

(** C5, at [bytes = 1024 ** 6]: the six divisions leave 1.0, the unit
    list is exhausted and the function falls off its end, returning
    [None] where a formatted string is expected; as it does one below,
    where the first quotient rounds up to [2.0 ** 50]. *)
Theorem get_size_exhausts_units :
  get_size (inject_Z (1024 ^ 6)) = None /\
  get_size (inject_Z (1024 ^ 6 - 1)) = None.
Proof. split; vm_compute; reflexivity. Qed.

(** C6.  A magnitude is divided by 1024, each quotient rounded as the
    float division rounds it, until it is below 1024; if the [k]-th of
    the units (none, K, M, G, T, P) is the first to find it so, the
    value comes out with two decimals, that unit and [B].  The floats
    and the integers below [2 ** 53] are divided without rounding:
    such a magnitude in the range of the [k]-th unit comes out as its
    exact quotient by [1024 ** k].  With the four values given. *)
Theorem get_size_units :
  (forall (b : Q) (k : nat),
     (k <= 5)%nat ->
     (forall j, (j < k)%nat -> 1024 <= scaled b j) -> scaled b k < 1024 ->
     get_size b
       = Some (fmt_2f (scaled b k) ++ lit (nth k units ""%string) ++ lit "B")) /\
  (forall (b : Q) (k : nat) (t : Z),
     (k <= 5)%nat -> (-1024 <= t)%Z -> dyadic t b ->
     unit_floor k <= b -> b < pow1024 (S k) ->
     scaled b k == b / pow1024 k /\
     get_size b
       = Some (fmt_2f (b / pow1024 k) ++ lit (nth k units ""%string) ++
               lit "B")) /\
  (forall n : Z, (0 <= n < 2 ^ 53)%Z -> dyadic 0 (inject_Z n)) /\
  get_size 0 = Some (lit "0.00B") /\
  get_size 1024 = Some (lit "1.00KB") /\
  get_size 1536 = Some (lit "1.50KB") /\
  get_size 1073741824 = Some (lit "1.00GB").
Proof.
  split; [|split; [|split; [|repeat split; vm_compute; reflexivity]]].
  - intros b k Hk Hge Hlt. unfold get_size.
    apply get_size_loop_scaled; [simpl; lia | exact Hge | exact Hlt].
  - intros b k t Hk Ht Hd Hlo Hhi. split.
    + apply (@scaled_exact k t b); [lia | exact Hd].
    + unfold get_size.
      apply (@get_size_loop_unit (lit "B") k units b t);
        [simpl; lia | lia | exact Hd | exact Hlo | exact Hhi].
  - intros n Hn. apply dyadic_Z. lia.
Qed.

Lemma get_size_units_witness :
  (scaled 1572864 2 == 1572864 / pow1024 2 /\
   get_size 1572864
     = Some (fmt_2f (1572864 / pow1024 2) ++
             lit (nth 2 units ""%string) ++ lit "B")) /\
  get_size 1572864
    = Some (fmt_2f (scaled 1572864 2) ++
            lit (nth 2 units ""%string) ++ lit "B").
Proof.
  split.
  - apply (proj1 (proj2 get_size_units) 1572864 2%nat 0%Z).
    + lia.
    + lia.
    + exists 1572864%Z. split; [reflexivity | reflexivity].
    + vm_compute. discriminate.
    + vm_compute. reflexivity.
  - apply (proj1 get_size_units 1572864 2%nat).
    + lia.
    + intros [|[|j]] Hj; [vm_compute; discriminate ..| lia].
    + vm_compute. reflexivity.
Defined.

(** ** Network throughput *)

Lemma py_div_num x r : ~ r == 0 -> py_div x (VNum r) = Ok (x / r).
Proof.
  intros H. unfold py_div. cbn [as_number bind].
  destruct (Qeq_bool r 0) eqn:E; [|reflexivity].
  apply Qeq_bool_eq in E. contradiction.
Qed.

Lemma net_step_rate cfg r old_net net :
  getitem cfg "refresh_rate" = Ok (VNum r) -> ~ r == 0 ->
  net_step cfg old_net net = Ok (rate_of r old_net net, net).
Proof.
  intros Hcfg Hr. unfold net_step.
  rewrite Hcfg. cbn [bind]. rewrite !py_div_num by exact Hr. reflexivity.
Qed.

Lemma last_cons (A : Type) (l : list A) : forall x d,
  last (x :: l) d = last l x.
Proof.
  induction l as [|y l IH]; intros x d; [reflexivity|].
  change (last (x :: y :: l) d) with (last (y :: l) d).
  now rewrite !IH.
Qed.

Lemma net_loop_run cfg r :
  getitem cfg "refresh_rate" = Ok (VNum r) -> ~ r == 0 ->
  forall readings old_net,
  exists out,
    net_loop cfg old_net readings = Ok (out, last readings old_net) /\
    List.length out = List.length readings /\
    forall i d, (i < List.length readings)%nat ->
      nth i out d
        = rate_of r (nth i (old_net :: readings) old_net)
                    (nth i readings old_net).
Proof.
  intros Hcfg Hr. induction readings as [|net later IH]; intros old_net.
  - exists []. repeat split. intros i d Hi. simpl in Hi. lia.
  - destruct (IH net) as (out & Hrun & Hlen & Hnth).
    exists (rate_of r old_net net :: out).
    cbn [net_loop]. rewrite (@net_step_rate cfg r old_net net Hcfg Hr).
    cbn [bind fst snd]. rewrite Hrun. cbn [bind fst snd].
    repeat split.
    + f_equal. f_equal. symmetry. apply last_cons.
    + simpl. now rewrite Hlen.
    + intros [|i] d Hi; [reflexivity|].
      simpl in Hi. cbn [nth]. rewrite (Hnth i d) by lia.
      change (match i with
              | O => net
              | S m => nth m later old_net
              end) with (nth i (net :: later) old_net).
      rewrite (@nth_indep _ (net :: later) i old_net net) by (simpl; lia).
      rewrite (@nth_indep _ later i old_net net) by lia. reflexivity.
Qed.

(** C7.  With a refresh rate [r] other than zero, every iteration of
    the loop yields, for each direction, the current counter minus the
    counter of the previous iteration, divided by [r]; the previous
    counter of the first iteration is the reading taken before the loop
    and, afterwards, the reading of the iteration before; the reading
    kept at the end is the last one.  From (1000, 2000) to (2000, 4000)
    at [refresh_rate = 1.0], the rates are 1000 up and 2000 down. *)
Theorem net_loop_rates :
  (forall cfg r old_net readings,
     getitem cfg "refresh_rate" = Ok (VNum r) -> ~ r == 0 ->
     exists out,
       net_loop cfg old_net readings = Ok (out, last readings old_net) /\
       List.length out = List.length readings /\
       forall i d, (i < List.length readings)%nat ->
         nth i out d
           = rate_of r (nth i (old_net :: readings) old_net)
                       (nth i readings old_net)) /\
  net_step (load_config (Parsed (VDict [("refresh_rate"%string, VNum 1)])))
           {| bytes_sent := 1000; bytes_recv := 2000 |}
           {| bytes_sent := 2000; bytes_recv := 4000 |}
    = Ok ({| sent := 1000; recv := 2000 |},
          {| bytes_sent := 2000; bytes_recv := 4000 |}).
Proof.
  split; [|reflexivity].
  intros cfg r old_net readings Hcfg Hr. now apply net_loop_run.
Qed.

Lemma net_loop_rates_witness :
  exists out,
    net_loop DEFAULT_CONFIG {| bytes_sent := 10; bytes_recv := 20 |}
      [ {| bytes_sent := 15; bytes_recv := 40 |};
        {| bytes_sent := 35; bytes_recv := 41 |} ]
    = Ok (out, {| bytes_sent := 35; bytes_recv := 41 |}) /\
    List.length out = 2%nat /\
    forall i d, (i < 2)%nat ->
      nth i out d
        = rate_of (1 # 2)
            (nth i [ {| bytes_sent := 10; bytes_recv := 20 |};
                     {| bytes_sent := 15; bytes_recv := 40 |};
                     {| bytes_sent := 35; bytes_recv := 41 |} ]
                 {| bytes_sent := 10; bytes_recv := 20 |})
            (nth i [ {| bytes_sent := 15; bytes_recv := 40 |};
                     {| bytes_sent := 35; bytes_recv := 41 |} ]
                 {| bytes_sent := 10; bytes_recv := 20 |}).
Proof.
  apply (proj1 net_loop_rates DEFAULT_CONFIG (1 # 2)
           {| bytes_sent := 10; bytes_recv := 20 |}
           [ {| bytes_sent := 15; bytes_recv := 40 |};
             {| bytes_sent := 35; bytes_recv := 41 |} ]).
  - reflexivity.
  - discriminate.
Defined.

(** ** [get_ping] *)

Lemma ping_attempt_Some cfg env v :
  ping_attempt cfg env = Ok v -> exists ms, v = Some ms.
Proof.
  unfold ping_attempt. intros H.
  do 8 bind_inv H. injection H as <-. eauto.
Qed.

(** C8.  [get_ping] never raises.  It asks for an [AF_INET] stream
    socket, sets its timeout to 0.5 s and connects to
    [(ping_target, ping_port)]; when every step returns, the result is
    the elapsed time in milliseconds; when any step raises, a failed
    connection in particular, the result is [None]. *)
Theorem get_ping_never_raises (cfg : value) (env : network) :
  (exists v, get_ping cfg env = Ok v) /\
  (forall st target port t,
     time_start env = Ok st ->
     socket_new env AF_INET SOCK_STREAM = Ok tt ->
     settimeout env (1 # 2) = Ok tt ->
     getitem cfg "ping_target" = Ok target ->
     getitem cfg "ping_port" = Ok port ->
     connect env (Some (1 # 2)) target port = Ok tt ->
     close env = Ok tt ->
     time_end env = Ok t ->
     get_ping cfg env = Ok (Some ((t - st) * 1000))) /\
  (forall st target port e,
     time_start env = Ok st ->
     socket_new env AF_INET SOCK_STREAM = Ok tt ->
     settimeout env (1 # 2) = Ok tt ->
     getitem cfg "ping_target" = Ok target ->
     getitem cfg "ping_port" = Ok port ->
     connect env (Some (1 # 2)) target port = Raise e ->
     get_ping cfg env = Ok None) /\
  (forall e, ping_attempt cfg env = Raise e -> get_ping cfg env = Ok None) /\
  (get_ping cfg env = Ok None ->
   exists e, ping_attempt cfg env = Raise e).
Proof.
  unfold get_ping. repeat split.
  - destruct (ping_attempt cfg env); simpl; eauto.
  - intros st target port t H1 H2 H3 H4 H5 H6 H7 H8. unfold ping_attempt.
    rewrite H1; cbn [bind]. rewrite H2; cbn [bind]. rewrite H3; cbn [bind].
    rewrite H4; cbn [bind]. rewrite H5; cbn [bind]. rewrite H6; cbn [bind].
    rewrite H7; cbn [bind]. rewrite H8. reflexivity.
  - intros st target port e H1 H2 H3 H4 H5 H6. unfold ping_attempt.
    rewrite H1; cbn [bind]. rewrite H2; cbn [bind]. rewrite H3; cbn [bind].
    rewrite H4; cbn [bind]. rewrite H5; cbn [bind]. rewrite H6. reflexivity.
  - intros e H. now rewrite H.
  - destruct (ping_attempt cfg env) as [v|e] eqn:E; [|eauto].
    destruct (ping_attempt_Some _ _ E) as [ms ->]. discriminate.
Qed.

Lemma get_ping_never_raises_witness :
  get_ping DEFAULT_CONFIG unreachable = Ok None.
Proof.
  apply (proj1 (proj2 (proj2 (get_ping_never_raises DEFAULT_CONFIG unreachable)))
           (17 # 1) (VStr "8.8.8.8") (VNum 53) OSError); reflexivity.
Defined.

(** ** [log_metrics] *)

Lemma assoc_dict_set (V : Type) k (v : V) : forall d,
  assoc k (dict_set k v d) = Some v.
Proof.
  induction d as [|[k' v'] d IH]; simpl.
  - now rewrite String.eqb_refl.
  - destruct (String.eqb k' k) eqn:E; simpl.
    + now rewrite String.eqb_refl.
    + now rewrite E.
Qed.

Lemma assoc_dict_set_other (V : Type) k k' (v : V) : forall d,
  k <> k' -> assoc k' (dict_set k v d) = assoc k' d.
Proof.
  intros d Hk. induction d as [|[k0 v0] d IH]; simpl.
  - destruct (String.eqb_spec k k'); [contradiction | reflexivity].
  - destruct (String.eqb_spec k0 k) as [->|]; simpl.
    + destruct (String.eqb_spec k k'); [contradiction|].
      reflexivity.
    + now rewrite IH.
Qed.

Lemma needs_quoting_app f g :
  needs_quoting (f ++ g) = needs_quoting f || needs_quoting g.
Proof. apply existsb_app. Qed.

Lemma plain_no_comma f : needs_quoting f = false -> commas f = 0%nat.
Proof.
  unfold commas. induction f as [|c f IH]; intros H; [reflexivity|].
  simpl in H. apply orb_false_iff in H. destruct H as [Hc Hf].
  simpl. destruct (N.eq_dec c COMMA) as [->|_]; [discriminate|].
  now apply IH.
Qed.

Lemma commas_app f g : commas (f ++ g) = (commas f + commas g)%nat.
Proof. apply count_occ_app. Qed.

Lemma commas_csv_join : forall fields,
  Forall (fun f => needs_quoting f = false) fields ->
  commas (csv_join fields) = (List.length fields - 1)%nat.
Proof.
  induction 1 as [|f fields Hf Hall IH]; [reflexivity|].
  destruct fields as [|g fields].
  - simpl. now apply plain_no_comma.
  - change (csv_join (f :: g :: fields))
      with (f ++ [COMMA] ++ csv_join (g :: fields)).
    rewrite !commas_app, IH, (plain_no_comma _ Hf). simpl. lia.
Qed.

Lemma two_digits_plain_nat (m : nat) :
  (m < 100)%nat -> needs_quoting (two_digits (Z.of_nat m)) = false.
Proof.
  intros Hm. do 100 (destruct m as [|m]; [reflexivity|]). lia.
Qed.

Lemma two_digits_plain n :
  (0 <= n < 100)%Z -> needs_quoting (two_digits n) = false.
Proof.
  intros H. rewrite <- (Z2Nat.id n) by lia.
  apply two_digits_plain_nat. lia.
Qed.

Lemma two_digits_length_nat (m : nat) :
  (m < 100)%nat -> List.length (two_digits (Z.of_nat m)) = 2%nat.
Proof.
  intros Hm. do 100 (destruct m as [|m]; [reflexivity|]). lia.
Qed.

Lemma two_digits_length n :
  (0 <= n < 100)%Z -> List.length (two_digits n) = 2%nat.
Proof.
  intros H. rewrite <- (Z2Nat.id n) by lia.
  apply two_digits_length_nat. lia.
Qed.

Lemma two_digits_places_nat (m : nat) :
  (m < 100)%nat -> two_digits (Z.of_nat m) = two_places (Z.of_nat m).
Proof.
  intros Hm. do 100 (destruct m as [|m]; [reflexivity|]). lia.
Qed.

Lemma two_digits_places n : (0 <= n < 100)%Z -> two_digits n = two_places n.
Proof.
  intros H. rewrite <- (Z2Nat.id n) by lia.
  apply two_digits_places_nat. lia.
Qed.

Lemma strftime_HMS_plain t :
  valid_time t -> needs_quoting (strftime_HMS t) = false.
Proof.
  intros (Hh & Hm & Hs). unfold strftime_HMS.
  rewrite !needs_quoting_app, !two_digits_plain by lia. reflexivity.
Qed.

Section Logging.

Variable float_repr : Q -> str.
Variable cfg : value.
Variable path : string.
Variable enabled : value.
Hypothesis Henabled : getitem cfg "logging_enabled" = Ok enabled.
Hypothesis Hon : truthy enabled = true.
Hypothesis Hpath : getitem cfg "log_file" = Ok (VStr path).

Lemma log_metrics_fresh s fs :
  assoc path fs = None -> creatable fs path = true ->
  log_metrics float_repr cfg s fs
    = Ok (dict_set path
            (File (csv_line float_repr HEADER ++
                   csv_line float_repr (data_row s))) fs).
Proof.
  intros Hnone Hcreate. unfold log_metrics.
  rewrite Henabled. cbn [bind]. rewrite Hon. cbn [negb].
  rewrite Hpath. cbn [bind as_path].
  unfold isfile, open. rewrite Hnone, Hcreate. reflexivity.
Qed.

Lemma log_metrics_uncreatable s fs :
  assoc path fs = None -> creatable fs path = false ->
  log_metrics float_repr cfg s fs = Raise OSError.
Proof.
  intros Hnone Hcreate. unfold log_metrics.
  rewrite Henabled. cbn [bind]. rewrite Hon. cbn [negb].
  rewrite Hpath. cbn [bind as_path].
  unfold isfile, open. rewrite Hnone, Hcreate. reflexivity.
Qed.

Lemma log_metrics_existing s fs text :
  assoc path fs = Some (File text) ->
  log_metrics float_repr cfg s fs
    = Ok (dict_set path (File (text ++ csv_line float_repr (data_row s))) fs).
Proof.
  intros Hfile. unfold log_metrics.
  rewrite Henabled. cbn [bind]. rewrite Hon. cbn [negb].
  rewrite Hpath. cbn [bind as_path].
  unfold isfile, open. rewrite Hfile. reflexivity.
Qed.

Lemma log_all_existing : forall samples fs text,
  assoc path fs = Some (File text) ->
  exists fs',
    log_all float_repr cfg samples fs = Ok fs' /\
    assoc path fs'
      = Some (File (text ++ csv_text float_repr (map data_row samples))) /\
    forall other, other <> path -> assoc other fs' = assoc other fs.
Proof.
  induction samples as [|s later IH]; intros fs text Hfile.
  - exists fs. unfold csv_text. cbn [flat_map map]. rewrite app_nil_r. auto.
  - cbn [log_all]. rewrite (log_metrics_existing s _ Hfile). cbn [bind].
    destruct (IH (dict_set path
                    (File (text ++ csv_line float_repr (data_row s))) fs)
                 (text ++ csv_line float_repr (data_row s)))
      as (fs' & Hrun & Htext & Hother).
    { apply assoc_dict_set. }
    exists fs'. split; [exact Hrun|]. split.
    + rewrite Htext, <- app_assoc. reflexivity.
    + intros other Ho. rewrite (Hother other Ho).
      apply assoc_dict_set_other. congruence.
Qed.

Lemma log_all_fresh s later fs :
  assoc path fs = None -> creatable fs path = true ->
  exists fs',
    log_all float_repr cfg (s :: later) fs = Ok fs' /\
    assoc path fs'
      = Some (File (csv_text float_repr
                      (HEADER :: map data_row (s :: later)))) /\
    forall other, other <> path -> assoc other fs' = assoc other fs.
Proof.
  intros Hnone Hcreate. cbn [log_all].
  rewrite (@log_metrics_fresh s fs Hnone Hcreate).
  cbn [bind].
  destruct (@log_all_existing later
              (dict_set path
                 (File (csv_line float_repr HEADER ++
                        csv_line float_repr (data_row s))) fs)
              (csv_line float_repr HEADER ++ csv_line float_repr (data_row s)))
    as (fs' & Hrun & Htext & Hother).
  { apply assoc_dict_set. }
  exists fs'. split; [exact Hrun|]. split.
  - rewrite Htext. unfold csv_text. cbn [flat_map map].
    now rewrite <- app_assoc.
  - intros other Ho. rewrite (Hother other Ho).
    apply assoc_dict_set_other. congruence.
Qed.

End Logging.

Section DataRow.

Variable float_repr : Q -> str.
Hypothesis float_plain : forall q, needs_quoting (float_repr q) = false.

Lemma data_row_plain s :
  valid_time (now s) ->
  Forall (fun f => needs_quoting f = false)
         (map (cell_str float_repr) (data_row s)).
Proof.
  intros Ht. unfold data_row. simpl.
  repeat constructor; try apply float_plain.
  - now apply strftime_HMS_plain.
  - unfold ping_or_0. destruct (ping s) as [q|]; [|reflexivity].
    destruct (Qeq_bool q 0); [reflexivity | apply float_plain].
Qed.

Lemma csv_fields_plain : forall r,
  Forall (fun f => needs_quoting f = false) (map (cell_str float_repr) r) ->
  map (csv_field float_repr) r = map (cell_str float_repr) r.
Proof.
  induction r as [|c r IH]; intros H; [reflexivity|].
  inversion H; subst. simpl. rewrite IH by assumption.
  unfold csv_field at 1. now rewrite H2.
Qed.

Lemma data_row_line s :
  valid_time (now s) ->
  csv_line float_repr (data_row s)
    = csv_join (map (cell_str float_repr) (data_row s)) ++ [CR; LF] /\
  commas (csv_line float_repr (data_row s)) = 6%nat.
Proof.
  intros Ht. pose proof (@data_row_plain s Ht) as Hplain.
  unfold csv_line. rewrite (@csv_fields_plain _ Hplain).
  split; [reflexivity|].
  rewrite commas_app, (@commas_csv_join _ Hplain). reflexivity.
Qed.

End DataRow.



Lemma log_metrics_disabled float_repr cfg enabled s fs :
  getitem cfg "logging_enabled" = Ok enabled -> truthy enabled = false ->
  log_metrics float_repr cfg s fs = Ok fs.
Proof.
  intros Hen Hoff. unfold log_metrics. rewrite Hen. cbn [bind].
  now rewrite Hoff.
Qed.

(** ** [load_config] *)

Lemma assoc_dict_set_some (V : Type) k0 k (v : V) : forall d,
  assoc k0 d <> None -> assoc k0 (dict_set k v d) <> None.
Proof.
  intros d H. destruct (String.eqb_spec k k0) as [->|Hk].
  - rewrite assoc_dict_set. discriminate.
  - now rewrite assoc_dict_set_other.
Qed.

Lemma assoc_dict_merge_some k0 : forall l d,
  assoc k0 d <> None -> assoc k0 (dict_merge d l) <> None.
Proof.
  unfold dict_merge. induction l as [|[k v] l IH]; intros d H; simpl.
  - exact H.
  - apply IH. now apply assoc_dict_set_some.
Qed.

Lemma assoc_dict_merge_absent k0 : forall l d,
  assoc k0 l = None -> assoc k0 (dict_merge d l) = assoc k0 d.
Proof.
  unfold dict_merge. induction l as [|[k v] l IH]; intros d H; simpl.
  - reflexivity.
  - simpl in H. destruct (String.eqb_spec k k0) as [->|Hk]; [discriminate|].
    rewrite IH by exact H. now apply assoc_dict_set_other.
Qed.

Lemma merge_loaded_keys loaded cfg key :
  merge_loaded loaded = Ok cfg ->
  getitem DEFAULT_CONFIG key <> Raise KeyError ->
  exists v, getitem cfg key = Ok v.
Proof.
  intros H Hkey.
  assert (Hd : exists d, DEFAULT_CONFIG = VDict d /\ assoc key d <> None).
  { eexists. split; [reflexivity|].
    intros E. apply Hkey. unfold getitem, DEFAULT_CONFIG. now rewrite E. }
  destruct Hd as (d & Ed & Hin).
  assert (Hgoal : forall d', assoc key d' <> None ->
                             exists v, getitem (VDict d') key = Ok v).
  { intros d' Hd'. unfold getitem.
    destruct (assoc key d') as [v|]; [eauto | contradiction]. }
  unfold merge_loaded in H. rewrite Ed in H.
  destruct loaded as [| | | | |l]; try discriminate.
  bind_inv H. bind_inv H.
  match type of H with (if ?b then _ else _) = _ => destruct b end.
  - bind_inv H. bind_inv H.
    unfold setitem in H. injection H as <-.
    apply Hgoal. apply assoc_dict_set_some.
    now apply assoc_dict_merge_some.
  - injection H as <-. apply Hgoal. now apply assoc_dict_merge_some.
Qed.

(** X20.  Every top-level field of the defaults is in the configuration
    that [load_config] leaves, whatever the file holds. *)
Lemma load_config_top_level file key :
  getitem DEFAULT_CONFIG key <> Raise KeyError ->
  exists v, getitem (load_config file) key = Ok v.
Proof.
  intros Hkey.
  assert (Hdef : exists v, getitem DEFAULT_CONFIG key = Ok v).
  { revert Hkey. unfold getitem, DEFAULT_CONFIG.
    destruct (assoc key _) as [v|]; [eauto|].
    intros H. exfalso. now apply H. }
  destruct file as [| |loaded]; try exact Hdef.
  unfold load_config.
  destruct (merge_loaded loaded) as [cfg|e] eqn:E; cbn [try_except].
  - exact (@merge_loaded_keys loaded cfg key E Hkey).
  - exact Hdef.
Qed.

(** A section that the document does not mention keeps its defaults. *)
Lemma load_config_thresholds_default l :
  assoc "thresholds" l = None ->
  getitem (load_config (Parsed (VDict l))) "thresholds"
    = getitem DEFAULT_CONFIG "thresholds".
Proof.
  intros Habs. unfold load_config.
  destruct (merge_loaded (VDict l)) as [cfg|e] eqn:E; cbn [try_except];
    [|reflexivity].
  unfold merge_loaded in E. cbn [DEFAULT_CONFIG] in E.
  bind_inv E. bind_inv E.
  match type of E with (if ?b then _ else _) = _ => destruct b end.
  - bind_inv E. bind_inv E. unfold setitem in E. injection E as <-.
    unfold getitem. rewrite assoc_dict_set_other by discriminate.
    now rewrite assoc_dict_merge_absent.
  - injection E as <-. unfold getitem. now rewrite assoc_dict_merge_absent.
Qed.

(** C1, at the document [{"colors": {"value_low": "blue"}}]: the merge
    takes the document's [colors] object in place of the default one and
    the safety check puts [label] back, nothing else.  [value_low] is
    overridden and [label] is "red", but [value_mid], [value_high] and
    [alert] are gone, and the first gauge at or above the middle
    threshold raises [KeyError]. *)
Theorem load_config_partial_colors :
  let cfg := load_config (Parsed PARTIAL_COLORS) in
  lookup2 cfg "colors" "value_low" = Ok (VStr "blue") /\
  lookup2 cfg "colors" "label" = Ok (VStr "red") /\
  lookup2 DEFAULT_CONFIG "colors" "value_mid" = Ok (VStr "yellow") /\
  lookup2 cfg "colors" "value_mid" = Raise KeyError /\
  lookup2 cfg "colors" "value_high" = Raise KeyError /\
  lookup2 cfg "colors" "alert" = Raise KeyError /\
  draw_bar cfg 60 15 = Raise KeyError.
Proof. repeat split. Qed.

(* ================================================================== *)
(** * Further properties of the rendering engine *)

(** ** [visible_len] on arbitrary and on assembled strings *)

Lemma sub_go_length r : forall s k,
  (List.length (sub_go r k s) <= List.length s)%nat.
Proof.
  induction s as [|c s IH]; intros k; simpl; [lia|].
  destruct k as [|k].
  - destruct (match_len r (c :: s)) as [[|n]|]; simpl;
      try (specialize (IH 0%nat); lia).
    specialize (IH n). lia.
  - specialize (IH k). lia.
Qed.

Lemma sub_go_In r x : forall s k, In x (sub_go r k s) -> In x s.
Proof.
  induction s as [|c s IH]; intros k H; simpl in H; [contradiction|].
  destruct k as [|k].
  - destruct (match_len r (c :: s)) as [[|n]|]; simpl in H;
      try (destruct H as [->|H]; [now left | right; exact (IH _ H)]).
    right. exact (IH _ H).
  - right. exact (IH _ H).
Qed.

(** X1.  Stripping only removes: the visible width of a string lies
    between 0 and its length, and every character that counts is a
    character of the string. *)
Theorem visible_len_bounds (s : str) :
  (0 <= visible_len s <= len s)%Z /\
  (forall c, In c (sub_empty ansi_escape s) -> In c s).
Proof.
  split.
  - unfold visible_len, len, sub_empty.
    pose proof (sub_go_length ansi_escape s 0). lia.
  - intros c. apply sub_go_In.
Qed.

Lemma sub_empty_assemble_app gs t :
  Forall segment_ok gs ->
  sub_empty ansi_escape (assemble gs ++ t)
    = content_of gs ++ sub_empty ansi_escape t.
Proof.
  induction 1 as [|g gs Hg _ IH]; [reflexivity|].
  unfold assemble, content_of in *. simpl.
  rewrite <- !app_assoc.
  destruct g as [u|u]; simpl in *.
  - rewrite sub_empty_content by exact Hg. now rewrite IH.
  - rewrite sub_empty_control by exact Hg. exact IH.
Qed.

(** X2.  The width of a string that starts with well-formed text
    (content without ESC, and whole control sequences) is the length of
    that content plus the width of the rest.  Without the condition the
    widths do not add up: a lone ESC in front of [[0m] makes a control
    sequence of it. *)
Theorem visible_len_assembled :
  (forall gs t, Forall segment_ok gs ->
     visible_len (assemble gs ++ t)
       = (len (content_of gs) + visible_len t)%Z) /\
  visible_len ([ESC] ++ lit "[0m") = 0%Z /\
  (visible_len [ESC] + visible_len (lit "[0m"))%Z = 4%Z.
Proof.
  split; [|split; reflexivity].
  intros gs t H. unfold visible_len.
  now rewrite sub_empty_assemble_app, len_app.
Qed.

Lemma visible_len_assembled_witness :
  visible_len (assemble [Content (lit "Up "); Control (color "green")] ++
               lit "12 B/s")
    = (len (content_of [Content (lit "Up "); Control (color "green")]) +
       visible_len (lit "12 B/s"))%Z.
Proof.
  apply (proj1 visible_len_assembled).
  repeat constructor; simpl.
  - intuition discriminate.
  - apply COLORS_control. apply (assoc_In "green" COLORS). reflexivity.
Defined.

(** ** The width of a bordered row *)

Lemma reset_control : control_sequence (color "reset").
Proof.
  apply COLORS_control. apply (assoc_In "reset" COLORS). reflexivity.
Qed.

Lemma times_SPACE_plain n : ~ In ESC (times SPACE n).
Proof. intros H. apply In_times in H. discriminate. Qed.

Lemma row_text_width gs border :
  Forall segment_ok gs -> control_sequence border ->
  visible_len (row_text (assemble gs) border)
    = Z.max W (len (content_of gs) + 4).
Proof.
  intros Hgs Hb. unfold visible_len, row_text.
  rewrite row_padding_max.
  assert (Hv : visible_len (assemble gs) = len (content_of gs)).
  { unfold visible_len. now rewrite sub_empty_assemble. }
  rewrite Hv.
  set (pad := Z.max 0 (W - 4 - len (content_of gs))).
  assert (Hone : forall c, c <> ESC -> ~ In ESC [c])
    by (intros c Hc [H|[]]; congruence).
  rewrite sub_empty_control by exact Hb.
  rewrite sub_empty_content by (apply Hone; discriminate).
  rewrite sub_empty_control by exact reset_control.
  rewrite sub_empty_content by (apply Hone; discriminate).
  rewrite sub_empty_assemble_app by exact Hgs.
  rewrite sub_empty_content by apply times_SPACE_plain.
  rewrite sub_empty_content by (apply Hone; discriminate).
  rewrite sub_empty_control by exact Hb.
  rewrite sub_empty_content by (apply Hone; discriminate).
  rewrite <- (app_nil_r (color "reset")).
  rewrite sub_empty_control by exact reset_control.
  rewrite !len_app, len_times by (unfold pad; lia).
  change (len [BORDER]) with 1%Z. change (len [SPACE]) with 1%Z.
  change (len (sub_empty ansi_escape [])) with 0%Z.
  unfold pad, W. lia.
Qed.

Lemma pr_line_width text :
  visible_len (times SPACE PADDING_LEFT ++ text)
    = (PADDING_LEFT + visible_len text)%Z.
Proof.
  unfold visible_len.
  rewrite sub_empty_content by apply times_SPACE_plain.
  rewrite len_app, len_times by (unfold PADDING_LEFT; lia). reflexivity.
Qed.

(** X3.  A row of well-formed content inside a border colour that is a
    control sequence comes out [W] wide after the left margin (exactly
    [W] in [monitorV1.py]) as long as the content is at most [W - 4]
    wide, so the right border stays in its column; wider content pushes
    the border out by the excess. *)
Theorem draw_row_aligned (gs : list segment) (border : str) (out : stdout) :
  Forall segment_ok gs -> control_sequence border ->
  let content := assemble gs in
  exists line,
    draw_row content border out = out ++ [line] /\
    MonitorV1.draw_row content border out
      = out ++ [row_text content border] /\
    visible_len line
      = (PADDING_LEFT + Z.max W (visible_len content + 4))%Z /\
    visible_len (row_text content border)
      = Z.max W (visible_len content + 4) /\
    ((visible_len content <= W - 4)%Z ->
     visible_len line = (PADDING_LEFT + W)%Z) /\
    ((W - 4 < visible_len content)%Z ->
     visible_len line = (PADDING_LEFT + visible_len content + 4)%Z).
Proof.
  intros Hgs Hb content.
  assert (Hv : visible_len content = len (content_of gs)).
  { unfold content, visible_len. now rewrite sub_empty_assemble. }
  assert (Hrow : visible_len (row_text content border)
                 = Z.max W (visible_len content + 4)).
  { rewrite Hv. now apply row_text_width. }
  exists (times SPACE PADDING_LEFT ++ row_text content border).
  repeat split; try reflexivity; try exact Hrow;
    rewrite pr_line_width, Hrow; try reflexivity; intros; lia.
Qed.

Lemma draw_row_aligned_witness :
  exists line,
    draw_row (assemble [Control (color "red"); Content (lit " [REC]")])
             (color "cyan") [] = [] ++ [line] /\
    visible_len line = (PADDING_LEFT + W)%Z.
Proof.
  destruct (@draw_row_aligned
              [Control (color "red"); Content (lit " [REC]")]
              (color "cyan") [])
    as (line & H1 & _ & _ & _ & H5 & _).
  - repeat constructor; simpl.
    + apply COLORS_control. apply (assoc_In "red" COLORS). reflexivity.
    + intuition discriminate.
  - apply COLORS_control. apply (assoc_In "cyan" COLORS). reflexivity.
  - exists line. split; [exact H1|]. apply H5. vm_compute. discriminate.
Defined.

(** X4.  The twelve box lines that [main] builds before the loop, with
    their titles of different lengths, all have visible width [W], the
    width of an aligned row. *)
Theorem box_lines_width :
  Forall (fun line => visible_len line = W) BOX_LINES /\
  List.length BOX_LINES = 12%nat.
Proof. split; [repeat constructor | reflexivity]. Qed.

(** ** Padded fields *)

Lemma ljust_length w s :
  List.length (ljust w s) = Nat.max w (List.length s).
Proof. unfold ljust. rewrite List.length_app, repeat_length. lia. Qed.

Lemma rjust_length w s :
  List.length (rjust w s) = Nat.max w (List.length s).
Proof. unfold rjust. rewrite List.length_app, repeat_length. lia. Qed.

Lemma repeat_SPACE_plain n : ~ In ESC (repeat SPACE n).
Proof. intros H. apply repeat_spec in H. discriminate. Qed.

Lemma ljust_plain w s : ~ In ESC s -> ~ In ESC (ljust w s).
Proof.
  intros Hs H. unfold ljust in H. apply in_app_or in H.
  destruct H as [H|H]; [exact (Hs H) | exact (repeat_SPACE_plain _ H)].
Qed.

Lemma rjust_plain w s : ~ In ESC s -> ~ In ESC (rjust w s).
Proof.
  intros Hs H. unfold rjust in H. apply in_app_or in H.
  destruct H as [H|H]; [exact (repeat_SPACE_plain _ H) | exact (Hs H)].
Qed.

Lemma plain_check t :
  forallb (fun c => negb (c =? ESC)%N) t = true -> ~ In ESC t.
Proof.
  intros H Hin. rewrite forallb_forall in H. specialize (H ESC Hin).
  discriminate.
Qed.

(** X5.  The title row holds the host name in a field of 20 columns.
    For a name without ESC the printed row is [W] wide after the margin
    when the name has at most 24 characters, and every further
    character pushes the right border out by one. *)
Theorem title_row_width (node : str) (out : stdout) :
  ~ In ESC node ->
  exists line,
    draw_row (title_content node) (color "cyan") out = out ++ [line] /\
    visible_len (title_content node)
      = (38 + Z.max 20 (len node))%Z /\
    visible_len line
      = (PADDING_LEFT + Z.max W (42 + len node))%Z /\
    ((len node <= 24)%Z -> visible_len line = (PADDING_LEFT + W)%Z).
Proof.
  intros Hnode.
  pose (text := lit "System Monitor Pro By Azhar        |  " ++ ljust 20 node).
  assert (Htext : ~ In ESC text).
  { unfold text. intros H. apply in_app_or in H. destruct H as [H|H].
    - revert H. apply plain_check. reflexivity.
    - exact (@ljust_plain 20 node Hnode H). }
  assert (Hlen : len text = (38 + Z.max 20 (len node))%Z).
  { unfold text. rewrite len_app. unfold len at 2.
    rewrite ljust_length. change (len (lit _)) with 38%Z. unfold len. lia. }
  assert (Hgs : Forall segment_ok [Control (color "yellow"); Content text]).
  { repeat constructor; simpl; [|exact Htext].
    apply COLORS_control. apply (assoc_In "yellow" COLORS). reflexivity. }
  assert (Hc : title_content node
               = assemble [Control (color "yellow"); Content text]).
  { unfold title_content, assemble, text. simpl. now rewrite app_nil_r. }
  assert (Hb : control_sequence (color "cyan")).
  { apply COLORS_control. apply (assoc_In "cyan" COLORS). reflexivity. }
  assert (Hv : visible_len (title_content node)
               = (38 + Z.max 20 (len node))%Z).
  { rewrite Hc. unfold visible_len. rewrite sub_empty_assemble by exact Hgs.
    unfold content_of. cbn [flat_map segment_content app].
    rewrite app_nil_r. exact Hlen. }
  exists (times SPACE PADDING_LEFT ++ row_text (title_content node) (color "cyan")).
  split; [reflexivity|]. split; [exact Hv|].
  assert (Hline : visible_len
                    (times SPACE PADDING_LEFT ++
                     row_text (title_content node) (color "cyan"))
                  = (PADDING_LEFT + Z.max W (42 + len node))%Z).
  { rewrite pr_line_width.
    assert (Hco : content_of [Control (color "yellow"); Content text] = text)
      by (unfold content_of; cbn [flat_map segment_content app];
          apply app_nil_r).
    assert (Hr : visible_len (row_text (title_content node) (color "cyan"))
                 = Z.max W (len text + 4)).
    { rewrite Hc, (@row_text_width _ _ Hgs Hb), Hco. reflexivity. }
    rewrite Hr, Hlen. unfold W. lia. }
  split; [exact Hline|].
  intros H24. rewrite Hline. unfold W. lia.
Qed.

Lemma title_row_width_witness :
  exists line,
    draw_row (title_content (lit "build-host-01")) (color "cyan") []
      = [] ++ [line] /\
    visible_len line = (PADDING_LEFT + W)%Z.
Proof.
  destruct (@title_row_width (lit "build-host-01") [])
    as (line & H1 & _ & _ & H4).
  - apply plain_check. reflexivity.
  - exists line. split; [exact H1|]. apply H4. vm_compute. discriminate.
Defined.

(** X6.  The device label of a storage row is exactly 5 characters
    wide, whatever the device name: the first 5 characters of the name,
    filled up with spaces when the name is shorter. *)
Theorem device_label_width (device : str) :
  List.length (device_label device) = 5%nat /\
  firstn (Nat.min 5 (List.length device)) (device_label device)
    = firstn 5 device /\
  (forall i, (List.length device <= i < 5)%nat ->
     nth_error (device_label device) i = Some SPACE).
Proof.
  unfold device_label. repeat split.
  - rewrite ljust_length, length_firstn. lia.
  - unfold ljust.
    rewrite <- (length_firstn 5 device) at 1.
    rewrite firstn_app, firstn_all, Nat.sub_diag. simpl.
    now rewrite app_nil_r.
  - intros i Hi. unfold ljust.
    rewrite nth_error_app2 by (rewrite length_firstn; lia).
    rewrite length_firstn.
    apply nth_error_repeat. lia.
Qed.

(** ** Colours and tiers *)

Lemma control_zero_width c : control_sequence c -> visible_len c = 0%Z.
Proof.
  intros Hc. unfold visible_len.
  rewrite <- (app_nil_r c). now rewrite sub_empty_control.
Qed.

(** X7.  Whatever name the configuration holds, the code that
    [get_ansi] returns is an entry of [COLORS], hence a control sequence
    of visible width 0: a name of the table gives its own code, any
    other hashable value gives the code of white, and only a list or an
    object raises. *)
Theorem get_ansi_zero_width :
  (forall o c, get_ansi o = Ok c ->
     In c (map snd COLORS) /\ control_sequence c /\ visible_len c = 0%Z) /\
  (forall name, get_ansi (VStr name)
     = Ok (match assoc name COLORS with
           | Some c => c
           | None => color "white"
           end)) /\
  (forall o, hashable o = true -> exists c, get_ansi o = Ok c) /\
  (forall o, hashable o = false -> get_ansi o = Raise TypeError).
Proof.
  repeat split.
  - exact (get_ansi_COLORS _ H).
  - exact (COLORS_control (get_ansi_COLORS _ H)).
  - exact (control_zero_width (COLORS_control (get_ansi_COLORS _ H))).
  - intros o. apply get_ansi_hashable.
  - intros o. destruct o; simpl; try discriminate; reflexivity.
Qed.

Lemma get_ansi_zero_width_witness :
  exists c, get_ansi (VStr "turquoise") = Ok c /\ visible_len c = 0%Z.
Proof.
  exists (color "white"). split; [reflexivity|].
  apply (proj1 get_ansi_zero_width (VStr "turquoise") (color "white")).
  reflexivity.
Defined.

Lemma Qlt_bool_lt x y : Qlt_bool x y = true <-> x < y.
Proof.
  split; [|apply Qlt_bool_true].
  unfold Qlt_bool. intros H. apply Qnot_le_lt. intros Hle.
  apply Qle_bool_iff in Hle. rewrite Hle in H. discriminate.
Qed.

Lemma Qlt_bool_ge x y : Qlt_bool x y = false <-> y <= x.
Proof.
  split; [|apply Qlt_bool_false].
  unfold Qlt_bool. intros H. apply Qle_bool_iff.
  destruct (Qle_bool y x); [reflexivity | discriminate].
Qed.

Lemma tier_monotone mid high p q : p <= q -> (tier mid high p <= tier mid high q)%nat.
Proof.
  intros Hpq. unfold tier.
  destruct (Qlt_bool p mid) eqn:Ep; [lia|].
  apply Qlt_bool_ge in Ep.
  rewrite (Qlt_bool_false (Qle_trans _ _ _ Ep Hpq)).
  destruct (Qlt_bool p high) eqn:Eh.
  - destruct (Qlt_bool q high); lia.
  - apply Qlt_bool_ge in Eh.
    rewrite (Qlt_bool_false (Qle_trans _ _ _ Eh Hpq)). lia.
Qed.

(** X8.  With numeric thresholds, [get_color_by_percent] looks up the
    colour of the tier of [p] and nothing else: low below [mid], middle
    from [mid] up to [high], high from [high] on, the boundaries going
    to the upper tier.  The tier never goes down when [p] goes up, and
    when [high <= mid] the middle colour is never used. *)
Theorem get_color_by_percent_tier (cfg th cs : value) (mid high p : Q) :
  getitem cfg "thresholds" = Ok th ->
  getitem th "mid" = Ok (VNum mid) ->
  getitem th "high" = Ok (VNum high) ->
  getitem cfg "colors" = Ok cs ->
  get_color_by_percent cfg p
    = (n <- getitem cs (tier_key (tier mid high p)) ;; get_ansi n) /\
  (p < mid -> tier mid high p = 0%nat) /\
  (mid <= p -> p < high -> tier mid high p = 1%nat) /\
  (mid <= p -> high <= p -> tier mid high p = 2%nat) /\
  (forall q, p <= q -> (tier mid high p <= tier mid high q)%nat) /\
  (high <= mid -> tier mid high p <> 1%nat).
Proof.
  intros Hth Hmid Hhigh Hcs. split; [|repeat split].
  - unfold get_color_by_percent, tier, py_lt.
    rewrite Hth. cbn [bind]. rewrite Hmid. cbn [bind as_number].
    destruct (Qlt_bool p mid).
    + rewrite Hcs. reflexivity.
    + rewrite Hhigh. cbn [bind as_number].
      destruct (Qlt_bool p high); rewrite Hcs; reflexivity.
  - intros H. unfold tier. now rewrite (Qlt_bool_true H).
  - intros H1 H2. unfold tier.
    now rewrite (Qlt_bool_false H1), (Qlt_bool_true H2).
  - intros H1 H2. unfold tier.
    now rewrite (Qlt_bool_false H1), (Qlt_bool_false H2).
  - intros q. apply tier_monotone.
  - intros Hhm. unfold tier.
    destruct (Qlt_bool p mid) eqn:Ep; [discriminate|].
    apply Qlt_bool_ge in Ep.
    rewrite (Qlt_bool_false (Qle_trans _ _ _ Hhm Ep)). discriminate.
Qed.

Lemma get_color_by_percent_tier_witness :
  get_color_by_percent DEFAULT_CONFIG 80 = Ok (color "red").
Proof.
  rewrite (proj1 (@get_color_by_percent_tier DEFAULT_CONFIG
    (VDict [("mid", VNum 50); ("high", VNum 80)]%string)
    (VDict [("label", VStr "red"); ("value_low", VStr "green");
            ("value_mid", VStr "yellow"); ("value_high", VStr "red");
            ("alert", VStr "red")]%string)
    50 80 80 eq_refl eq_refl eq_refl eq_refl)).
  reflexivity.
Defined.

(** ** More on [draw_bar] *)

Lemma scaled_le L p q :
  (0 <= L)%Z -> p <= q ->
  (Qfloor (float_round (inject_Z L * p) / 100)
   <= Qfloor (float_round (inject_Z L * q) / 100))%Z.
Proof.
  intros HL Hpq. apply Qfloor_resp_le.
  pose proof (inject_Z_nonneg HL) as HL'.
  unfold Qdiv. apply Qmult_le_compat_r; [|discriminate].
  apply float_round_mono.
  rewrite !(Qmult_comm (inject_Z L)).
  now apply Qmult_le_compat_r.
Qed.



(* ================================================================== *)
(** * Further properties of the configuration *)

Lemma assoc_absent (V : Type) k : forall (l : list (string * V)),
  ~ In k (map fst l) -> assoc k l = None.
Proof.
  induction l as [|[k' v] l IH]; intros H; [reflexivity|].
  simpl in *. destruct (String.eqb_spec k' k) as [->|Hk].
  - exfalso. apply H. now left.
  - apply IH. intros Hin. apply H. now right.
Qed.

Lemma assoc_dict_merge k : forall l d,
  NoDup (map fst l) ->
  assoc k (dict_merge d l)
    = match assoc k l with
      | Some v => Some v
      | None => assoc k d
      end.
Proof.
  unfold dict_merge. induction l as [|[k0 v0] l IH]; intros d Hnd;
    [reflexivity|].
  simpl in Hnd. inversion Hnd as [|? ? Hnotin Hnd']; subst.
  cbn [fold_left fst snd assoc].
  destruct (String.eqb_spec k0 k) as [->|Hk].
  - fold (dict_merge (dict_set k v0 d) l).
    rewrite assoc_dict_merge_absent by now apply assoc_absent.
    apply assoc_dict_set.
  - rewrite IH by exact Hnd'.
    destruct (assoc k l); [reflexivity|].
    now apply assoc_dict_set_other.
Qed.

Lemma merge_loaded_unfold l :
  merge_loaded (VDict l)
    = (let cfg := VDict (dict_merge default_items l) in
       has_colors <- contains (VDict l) "colors" ;;
       missing <-
         (if negb has_colors then Ok true
          else (c <- getitem (VDict l) "colors" ;;
                has_label <- contains c "label" ;;
                Ok (negb has_label))) ;;
       if (missing : bool) then
         c <- getitem cfg "colors" ;;
         c' <- setitem c "label" (VStr "red") ;;
         setitem cfg "colors" c'
       else Ok cfg).
Proof. reflexivity. Qed.

Lemma merge_loaded_no_colors l :
  assoc "colors" l = None ->
  merge_loaded (VDict l)
    = Ok (VDict (dict_set "colors" default_colors
                   (dict_merge default_items l))).
Proof.
  intros Habs. rewrite merge_loaded_unfold. cbv zeta.
  unfold contains at 1. rewrite Habs. cbn [bind negb].
  unfold getitem at 1. rewrite (@assoc_dict_merge_absent "colors" l) by exact Habs.
  reflexivity.
Qed.

Lemma merge_loaded_colors l c :
  NoDup (map fst l) -> assoc "colors" l = Some c ->
  merge_loaded (VDict l)
    = (has_label <- contains c "label" ;;
       if negb has_label then
         c' <- setitem c "label" (VStr "red") ;;
         setitem (VDict (dict_merge default_items l)) "colors" c'
       else Ok (VDict (dict_merge default_items l))).
Proof.
  intros Hnd Hc. rewrite merge_loaded_unfold. cbv zeta.
  unfold contains at 1. rewrite Hc. cbn [bind negb].
  unfold getitem at 1. rewrite Hc. cbn [bind].
  destruct (contains c "label") as [[|]|e]; cbn [bind negb]; try reflexivity.
  unfold getitem. rewrite assoc_dict_merge by exact Hnd. rewrite Hc.
  reflexivity.
Qed.

(** X10.  [load_config] ends with the defaults, and nothing of the
    document, when there is no file, when it cannot be read or parsed,
    when the document is not an object, and when its [colors] entry is
    null, a boolean, a number, or a string or list that does not
    mention "label": one ill-typed entry discards every other setting
    of the document. *)
Theorem load_config_fallback :
  load_config Absent = DEFAULT_CONFIG /\
  load_config Unreadable = DEFAULT_CONFIG /\
  (forall v, is_object v = false -> load_config (Parsed v) = DEFAULT_CONFIG) /\
  (forall l c, NoDup (map fst l) -> assoc "colors" l = Some c ->
     colors_rejected c = true ->
     load_config (Parsed (VDict l)) = DEFAULT_CONFIG).
Proof.
  repeat split.
  - intros v Hv. destruct v; try discriminate; reflexivity.
  - intros l c Hnd Hc Hrej. unfold load_config.
    rewrite (@merge_loaded_colors l c Hnd Hc).
    unfold colors_rejected, mentions_label in Hrej.
    destruct c as [|b|q|s|lst|dc]; try discriminate; try reflexivity.
    + cbn [contains] in Hrej |- *.
      destruct (String.index 0 "label" s); [discriminate|]. reflexivity.
    + cbn [contains] in Hrej |- *.
      destruct (existsb _ lst); [discriminate|]. reflexivity.
Qed.

Lemma load_config_fallback_witness :
  load_config (Parsed (VDict [("refresh_rate", VNum 2);
                              ("colors", VNum 7)]%string))
    = DEFAULT_CONFIG.
Proof.
  apply (proj2 (proj2 (proj2 load_config_fallback))
           [("refresh_rate", VNum 2); ("colors", VNum 7)]%string (VNum 7)).
  - repeat constructor; simpl; intuition discriminate.
  - reflexivity.
  - reflexivity.
Defined.

Lemma getitem_set_other d k k' v :
  k <> k' -> getitem (VDict (dict_set k v d)) k' = getitem (VDict d) k'.
Proof. intros H. unfold getitem. now rewrite assoc_dict_set_other. Qed.

Lemma getitem_merged l k :
  NoDup (map fst l) ->
  getitem (VDict (dict_merge default_items l)) k
    = match assoc k l with
      | Some v => Ok v
      | None => getitem DEFAULT_CONFIG k
      end.
Proof.
  intros Hnd. unfold getitem at 1. rewrite assoc_dict_merge by exact Hnd.
  destruct (assoc k l); reflexivity.
Qed.

(** The configuration left by a document whose [colors] entry is absent
    or an object. *)
Lemma load_config_accepted l :
  NoDup (map fst l) ->
  (assoc "colors" l = None /\
   load_config (Parsed (VDict l))
     = VDict (dict_set "colors" default_colors
                (dict_merge default_items l))) \/
  (exists dc,
     assoc "colors" l = Some (VDict dc) /\
     load_config (Parsed (VDict l))
       = match assoc "label" dc with
         | Some _ => VDict (dict_merge default_items l)
         | None =>
             VDict (dict_set "colors"
                      (VDict (dict_set "label" (VStr "red") dc))
                      (dict_merge default_items l))
         end) \/
  (exists c, assoc "colors" l = Some c /\ is_object c = false).
Proof.
  intros Hnd. destruct (assoc "colors" l) as [c|] eqn:Hc.
  - destruct c as [|b|q|s|lst|dc];
      try (right; right; eexists; split; [reflexivity | reflexivity]).
    right; left. exists dc. split; [reflexivity|].
    unfold load_config. rewrite (@merge_loaded_colors l _ Hnd Hc).
    cbn [contains bind]. destruct (assoc "label" dc); reflexivity.
  - left. split; [reflexivity|].
    unfold load_config. now rewrite merge_loaded_no_colors.
Qed.

(** X11.  For a document with distinct keys whose [colors] entry is
    absent or an object, every entry other than [colors] is the
    document's when the document has it (known key or not) and the
    default otherwise. *)
Theorem load_config_overrides (l : dict) (k : string) :
  NoDup (map fst l) ->
  (assoc "colors" l = None \/ exists dc, assoc "colors" l = Some (VDict dc)) ->
  k <> "colors"%string ->
  getitem (load_config (Parsed (VDict l))) k
    = match assoc k l with
      | Some v => Ok v
      | None => getitem DEFAULT_CONFIG k
      end.
Proof.
  intros Hnd Hcol Hk.
  assert (Hk' : "colors"%string <> k) by congruence.
  destruct (@load_config_accepted l Hnd)
    as [[_ ->]|[(dc & Hdc & ->)|(c & Hc & Hobj)]].
  - rewrite getitem_set_other by exact Hk'. now apply getitem_merged.
  - destruct (assoc "label" dc).
    + now apply getitem_merged.
    + rewrite getitem_set_other by exact Hk'. now apply getitem_merged.
  - exfalso. destruct Hcol as [Hn|(dc & Hdc)]; rewrite Hc in *.
    + discriminate.
    + injection Hdc as ->. discriminate.
Qed.

Lemma load_config_overrides_witness :
  getitem (load_config (Parsed (VDict [("refresh_rate", VNum 2);
                                       ("theme", VStr "dark")]%string)))
          "theme"
    = Ok (VStr "dark").
Proof.
  apply (@load_config_overrides
           [("refresh_rate", VNum 2); ("theme", VStr "dark")]%string "theme").
  - repeat constructor; simpl; intuition discriminate.
  - left. reflexivity.
  - discriminate.
Defined.

(** X12.  For a document with distinct keys: without a [colors] entry
    the default colours are in place; with a [colors] object the
    configuration holds that object, with [label] set to "red" when the
    object has none.  So [colors.label] can always be looked up, a
    label of the document is kept, and every other colour key is
    exactly as in the document: present with the document's value or
    absent. *)
Theorem load_config_label (l : dict) :
  NoDup (map fst l) ->
  let cfg := load_config (Parsed (VDict l)) in
  (assoc "colors" l = None ->
   getitem cfg "colors" = getitem DEFAULT_CONFIG "colors") /\
  (forall dc, assoc "colors" l = Some (VDict dc) ->
     (exists v, lookup2 cfg "colors" "label" = Ok v /\
                v = match assoc "label" dc with
                    | Some u => u
                    | None => VStr "red"
                    end) /\
     (forall k, k <> "label"%string ->
        lookup2 cfg "colors" k = getitem (VDict dc) k)).
Proof.
  intros Hnd cfg. subst cfg. split.
  - intros Habs.
    destruct (@load_config_accepted l Hnd)
      as [[_ ->]|[(dc & Hdc & _)|(c & Hc & _)]]; try congruence.
    unfold getitem at 1. now rewrite assoc_dict_set.
  - intros dc Hdc.
    assert (Hcfg : getitem (load_config (Parsed (VDict l))) "colors"
                   = Ok (match assoc "label" dc with
                         | Some _ => VDict dc
                         | None => VDict (dict_set "label" (VStr "red") dc)
                         end)).
    { destruct (@load_config_accepted l Hnd)
        as [[Hn _]|[(dc' & Hdc' & ->)|(c & Hc & Hobj)]].
      - congruence.
      - assert (dc' = dc) by congruence. subst dc'.
        destruct (assoc "label" dc).
        + rewrite getitem_merged by exact Hnd. now rewrite Hdc.
        + unfold getitem. now rewrite assoc_dict_set.
      - rewrite Hc in Hdc. injection Hdc as ->. discriminate. }
    unfold lookup2. rewrite Hcfg. cbn [bind]. split.
    + destruct (assoc "label" dc) as [u|] eqn:Hl.
      * exists u. unfold getitem. now rewrite Hl.
      * exists (VStr "red"). unfold getitem. now rewrite assoc_dict_set.
    + intros k Hk. destruct (assoc "label" dc); [reflexivity|].
      apply getitem_set_other. congruence.
Qed.

Lemma load_config_label_witness :
  exists v,
    lookup2 (load_config (Parsed PARTIAL_COLORS)) "colors" "label" = Ok v /\
    v = VStr "red".
Proof.
  apply (proj2 (@load_config_label
                  [("colors", VDict [("value_low", VStr "blue")]%string)]%string
                  ltac:(repeat constructor; simpl; intuition discriminate))
           [("value_low", VStr "blue")]%string eq_refl).
Defined.

(** X13.  The safety check tests ["label" in loaded["colors"]] without
    asking whether [colors] is an object.  A [colors] entry that is a
    string containing "label", or a list with the element "label",
    passes the check and is taken as it is, and the lookup of
    [colors.label] that [main] starts with raises [TypeError]. *)
Theorem load_config_unchecked_colors (l : dict) (c : value) :
  NoDup (map fst l) -> assoc "colors" l = Some c ->
  colors_unchecked c = true ->
  getitem (load_config (Parsed (VDict l))) "colors" = Ok c /\
  lookup2 (load_config (Parsed (VDict l))) "colors" "label"
    = Raise TypeError.
Proof.
  intros Hnd Hc Hun.
  assert (Hcfg : load_config (Parsed (VDict l))
                 = VDict (dict_merge default_items l)).
  { unfold load_config. rewrite (@merge_loaded_colors l c Hnd Hc).
    unfold colors_unchecked, mentions_label in Hun.
    destruct c as [|b|q|s|lst|dc]; try discriminate;
      destruct (contains _ "label") as [[|]|e]; try discriminate;
      reflexivity. }
  assert (Hcol : getitem (load_config (Parsed (VDict l))) "colors" = Ok c).
  { rewrite Hcfg, getitem_merged by exact Hnd. now rewrite Hc. }
  split; [exact Hcol|].
  unfold lookup2. rewrite Hcol. cbn [bind].
  destruct c; try discriminate; reflexivity.
Qed.

Lemma load_config_unchecked_colors_witness :
  lookup2 (load_config (Parsed (VDict [("colors", VStr "no label")]%string)))
          "colors" "label"
    = Raise TypeError.
Proof.
  apply (@load_config_unchecked_colors
           [("colors", VStr "no label")]%string (VStr "no label")).
  - repeat constructor; simpl; intuition discriminate.
  - reflexivity.
  - reflexivity.
Defined.

Lemma load_config_top_level_witness :
  exists v,
    getitem (load_config (Parsed (VDict [("colors", VNum 7)]%string)))
            "ping_port" = Ok v.
Proof.
  apply (@load_config_top_level
           (Parsed (VDict [("colors", VNum 7)]%string)) "ping_port").
  discriminate.
Defined.

(* ================================================================== *)
(** * Further properties of [get_size] *)

(** The largest double below [2 ** (t + 53)]. *)
Lemma below_pow2_exact t :
  (-1074 <= t)%Z ->
  float_round (inject_Z (2 ^ 53 - 1) * pow2 t)
  == inject_Z (2 ^ 53 - 1) * pow2 t.
Proof. intros Ht. apply float_round_exact; [reflexivity | exact Ht]. Qed.

(** Below the midpoint under [2 ** 50] the quotient rounds down. *)
Lemma float_round_below x :
  x < pow2 50 - pow2 (-4) ->
  float_round x <= inject_Z (2 ^ 53 - 1) * pow2 (-3).
Proof.
  intros Hx.
  destruct (Qlt_le_dec (inject_Z (2 ^ 53 - 1) * pow2 (-3)) x) as [Hd|Hd].
  - assert (Hpos : 0 < x)
      by (apply Qlt_trans with (2 := Hd); reflexivity).
    assert (Hlg : ilog2 x = 49%Z).
    { apply ilog2_unique.
      - apply Qlt_le_weak. apply Qlt_trans with (2 := Hd). reflexivity.
      - apply Qlt_trans with (1 := Hx). reflexivity. }
    rewrite (float_round_pos Hpos). unfold round_pos. rewrite Hlg.
    change (Z.max (49 - 52) (-1074)) with (-3)%Z.
    apply Qmult_le_compat_r; [|apply Qlt_le_weak, pow2_pos].
    rewrite <- Zle_Qle.
    rewrite (@round_half_even_low (x * pow2 (- -3)) (2 ^ 53 - 1));
      [apply Z.le_refl | |].
    + apply Qlt_le_weak.
      apply Qmult_lt_r with (z := pow2 (-3)); [apply pow2_pos|].
      rewrite <- Qmult_assoc.
      setoid_replace (pow2 (- -3) * pow2 (-3)) with 1 by reflexivity.
      now rewrite Qmult_1_r.
    + apply Qmult_lt_r with (z := pow2 (-3)); [apply pow2_pos|].
      rewrite <- Qmult_assoc.
      setoid_replace (pow2 (- -3) * pow2 (-3)) with 1 by reflexivity.
      rewrite Qmult_1_r. apply Qlt_le_trans with (1 := Hx).
      apply Qle_lteq. right. reflexivity.
  - rewrite <- (@below_pow2_exact (-3) ltac:(lia)).
    now apply float_round_mono.
Qed.

(** A value that is at most the largest double below the end of the
    unit list is formatted. *)
Lemma get_size_loop_Some suffix : forall us b,
  us <> [] ->
  b <= inject_Z (2 ^ 53 - 1) * pow2 (10 * Z.of_nat (List.length us) - 53) ->
  get_size_loop us b suffix <> None.
Proof.
  induction us as [|u us IH]; intros b Hne Hb; [contradiction|].
  simpl get_size_loop.
  destruct (Qlt_bool b factor) eqn:E; [discriminate|].
  apply Qlt_bool_ge in E.
  destruct us as [|u' us].
  - exfalso. apply (Qlt_not_le b factor); [|exact E].
    apply Qle_lt_trans with (1 := Hb). reflexivity.
  - apply IH; [discriminate|].
    set (n := List.length (u' :: us)) in *.
    assert (Hn : (1 <= Z.of_nat n)%Z) by (unfold n; simpl; lia).
    replace (10 * Z.of_nat (List.length (u :: u' :: us)) - 53)%Z
      with (10 * Z.of_nat n - 53 + 10)%Z in Hb
      by (change (List.length (u :: u' :: us)) with (S n); lia).
    rewrite <- (@below_pow2_exact (10 * Z.of_nat n - 53) ltac:(lia)).
    unfold float_truediv. apply float_round_mono.
    apply Qle_shift_div_r; [reflexivity|].
    apply Qle_trans with (1 := Hb).
    rewrite pow2_add. change (pow2 10) with factor.
    rewrite Qmult_assoc. apply Qle_refl.
Qed.

Lemma get_size_first b :
  get_size b
  = if Qlt_bool b factor then Some (fmt_2f b ++ lit "B")
    else get_size_loop ["K"; "M"; "G"; "T"; "P"]%string
                       (float_truediv b factor) (lit "B").
Proof. reflexivity. Qed.



(* ================================================================== *)
(** * Further properties of the sampling loop *)

(** X15.  Over a run of the loop the rates account for every byte once:
    the rates of a direction, added up and multiplied by the refresh
    rate, give the last counter minus the counter read before the loop,
    however the traffic was spread over the iterations. *)
Theorem net_loop_accounts (cfg : value) (r : Q) (old_net : snetio)
    (readings : list snetio) :
  getitem cfg "refresh_rate" = Ok (VNum r) -> ~ r == 0 ->
  exists out,
    net_loop cfg old_net readings = Ok (out, last readings old_net) /\
    total_sent out * r
      == inject_Z (bytes_sent (last readings old_net) - bytes_sent old_net) /\
    total_recv out * r
      == inject_Z (bytes_recv (last readings old_net) - bytes_recv old_net).
Proof.
  intros Hcfg Hr. revert old_net.
  induction readings as [|net later IH]; intros old_net.
  - exists []. split; [reflexivity|]. simpl. rewrite !Z.sub_diag.
    split; reflexivity.
  - destruct (IH net) as (out & Hrun & Hs & Hv).
    exists (rate_of r old_net net :: out).
    cbn [net_loop]. rewrite (@net_step_rate cfg r old_net net Hcfg Hr).
    cbn [bind fst snd]. rewrite Hrun. cbn [bind fst snd].
    rewrite last_cons. split; [reflexivity|].
    unfold total_sent, total_recv in *. cbn [fold_right rate_of sent recv].
    split.
    + rewrite Qmult_plus_distr_l, Hs.
      unfold Qdiv. rewrite <- Qmult_assoc, (Qmult_comm (/ r)).
      rewrite Qmult_inv_r by exact Hr. rewrite Qmult_1_r.
      rewrite <- inject_Z_plus. apply inject_Z_injective. lia.
    + rewrite Qmult_plus_distr_l, Hv.
      unfold Qdiv. rewrite <- Qmult_assoc, (Qmult_comm (/ r)).
      rewrite Qmult_inv_r by exact Hr. rewrite Qmult_1_r.
      rewrite <- inject_Z_plus. apply inject_Z_injective. lia.
Qed.

Lemma net_loop_accounts_witness :
  exists out,
    net_loop DEFAULT_CONFIG {| bytes_sent := 10; bytes_recv := 20 |}
      [ {| bytes_sent := 15; bytes_recv := 40 |};
        {| bytes_sent := 35; bytes_recv := 41 |} ]
    = Ok (out, {| bytes_sent := 35; bytes_recv := 41 |}) /\
    total_sent out * (1 # 2) == inject_Z (35 - 10) /\
    total_recv out * (1 # 2) == inject_Z (41 - 20).
Proof.
  apply (@net_loop_accounts DEFAULT_CONFIG (1 # 2)
           {| bytes_sent := 10; bytes_recv := 20 |}
           [ {| bytes_sent := 15; bytes_recv := 40 |};
             {| bytes_sent := 35; bytes_recv := 41 |} ]).
  - reflexivity.
  - discriminate.
Defined.

(** X16.  A refresh rate of zero (the number 0 or [false]) stops the
    loop in its first iteration with [ZeroDivisionError]; a refresh
    rate that is no number stops it with [TypeError]; no rate is
    produced in either case. *)
Theorem net_loop_bad_rate (cfg : value) (old_net net : snetio)
    (later : list snetio) :
  (forall rr, getitem cfg "refresh_rate" = Ok rr ->
     (rr = VBool false \/ exists q, rr = VNum q /\ q == 0) ->
     net_loop cfg old_net (net :: later) = Raise ZeroDivisionError) /\
  (forall rr, getitem cfg "refresh_rate" = Ok rr -> is_number rr = false ->
     net_loop cfg old_net (net :: later) = Raise TypeError).
Proof.
  split; intros rr Hrr H; cbn [net_loop]; unfold net_step;
    rewrite Hrr; cbn [bind]; unfold py_div.
  - destruct H as [->|(q & -> & Hq)]; cbn [as_number bind].
    + reflexivity.
    + apply Qeq_bool_iff in Hq. rewrite Hq. reflexivity.
  - destruct rr; try discriminate; reflexivity.
Qed.

Lemma net_loop_bad_rate_witness :
  net_loop (load_config (Parsed (VDict [("refresh_rate", VNum 0)]%string)))
           {| bytes_sent := 10; bytes_recv := 20 |}
           [ {| bytes_sent := 15; bytes_recv := 40 |} ]
    = Raise ZeroDivisionError.
Proof.
  apply (proj1 (@net_loop_bad_rate
    (load_config (Parsed (VDict [("refresh_rate", VNum 0)]%string)))
    {| bytes_sent := 10; bytes_recv := 20 |}
    {| bytes_sent := 15; bytes_recv := 40 |} []) (VNum 0)).
  - reflexivity.
  - right. exists 0. split; reflexivity.
Defined.



(* ================================================================== *)
(** * The per-core rows *)

Lemma renders_plain t : ~ In ESC t -> renders t t.
Proof. intros H u. now apply sub_empty_content. Qed.

Lemma renders_control c : control_sequence c -> renders c [].
Proof. intros H u. now apply sub_empty_control. Qed.

Lemma renders_app a pa b pb :
  renders a pa -> renders b pb -> renders (a ++ b) (pa ++ pb).
Proof.
  intros Ha Hb t. rewrite <- !app_assoc. now rewrite Ha, Hb.
Qed.

Lemma renders_visible_len s plain : renders s plain -> visible_len s = len plain.
Proof.
  intros H. unfold visible_len. rewrite <- (app_nil_r s) at 1.
  rewrite H. now rewrite app_nil_r.
Qed.

Lemma row_text_width_renders content plain border :
  renders content plain -> control_sequence border ->
  visible_len (row_text content border) = Z.max W (len plain + 4).
Proof.
  intros Hc Hb. unfold visible_len, row_text.
  rewrite row_padding_max, (renders_visible_len Hc).
  set (pad := Z.max 0 (W - 4 - len plain)).
  assert (Hone : forall c, c <> ESC -> ~ In ESC [c])
    by (intros c Hne [H|[]]; congruence).
  rewrite sub_empty_control by exact Hb.
  rewrite sub_empty_content by (apply Hone; discriminate).
  rewrite sub_empty_control by exact reset_control.
  rewrite sub_empty_content by (apply Hone; discriminate).
  rewrite Hc.
  rewrite sub_empty_content by apply times_SPACE_plain.
  rewrite sub_empty_content by (apply Hone; discriminate).
  rewrite sub_empty_control by exact Hb.
  rewrite sub_empty_content by (apply Hone; discriminate).
  rewrite <- (app_nil_r (color "reset")).
  rewrite sub_empty_control by exact reset_control.
  rewrite !len_app, len_times by (unfold pad; lia).
  change (len [BORDER]) with 1%Z. change (len [SPACE]) with 1%Z.
  change (len (sub_empty ansi_escape [])) with 0%Z.
  unfold pad, W. lia.
Qed.

Lemma Qabs_nonneg_eq c : 0 <= c -> Qabs c = c.
Proof.
  destruct c as [n d]. unfold Qle. simpl. intros H.
  f_equal. apply Z.abs_eq. lia.
Qed.

Lemma round_half_even_percent c :
  0 <= c -> c <= 100 -> (0 <= round_half_even c <= 100)%Z.
Proof.
  destruct c as [n d]. unfold Qle, round_half_even. cbn [Qnum Qden].
  intros H0 H1.
  pose proof (Z.div_mod n (Z.pos d) ltac:(lia)) as Hdm.
  pose proof (Z.mod_pos_bound n (Z.pos d) ltac:(lia)) as Hr.
  assert (Hf0 : (0 <= n / Z.pos d)%Z) by (apply Z.div_pos; lia).
  assert (Hf1 : (n / Z.pos d <= 100)%Z)
    by (apply Z.div_le_upper_bound; lia).
  destruct (Z.compare_spec (2 * (n mod Z.pos d)) (Z.pos d)) as [E|E|E].
  - destruct (Z.even (n / Z.pos d)); nia.
  - lia.
  - nia.
Qed.

Lemma digits_percent_nat (m : nat) :
  (m <= 100)%nat ->
  (List.length (digits (Z.of_nat m)) <= 3)%nat /\
  forallb (fun c => negb (c =? ESC)%N) (digits (Z.of_nat m)) = true.
Proof.
  intros Hm. do 101 (destruct m as [|m]; [split; [vm_compute; lia|reflexivity]|]).
  lia.
Qed.

Lemma percent_field c :
  0 <= c -> c <= 100 ->
  List.length (rjust 3 (fmt_0f c)) = 3%nat /\ ~ In ESC (rjust 3 (fmt_0f c)).
Proof.
  intros H0 H1.
  assert (Hf : fmt_0f c = digits (round_half_even c)).
  { unfold fmt_0f. rewrite (Qlt_bool_false H0), (Qabs_nonneg_eq H0).
    reflexivity. }
  pose proof (round_half_even_percent H0 H1) as Hr.
  destruct (@digits_percent_nat (Z.to_nat (round_half_even c)) ltac:(lia))
    as [Hlen Hplain].
  rewrite Z2Nat.id in Hlen, Hplain by lia.
  rewrite Hf. split.
  - rewrite rjust_length. lia.
  - apply rjust_plain. now apply plain_check.
Qed.

Lemma two_digits_ESC_nat (m : nat) :
  (m < 100)%nat ->
  forallb (fun c => negb (c =? ESC)%N) (two_digits (Z.of_nat m)) = true.
Proof.
  intros Hm. do 100 (destruct m as [|m]; [reflexivity|]). lia.
Qed.

Lemma core_label_field (i : nat) :
  (i < 100)%nat ->
  List.length (two_digits (Z.of_nat i)) = 2%nat /\
  ~ In ESC (two_digits (Z.of_nat i)).
Proof.
  intros Hi. split.
  - now apply two_digits_length_nat.
  - apply plain_check. now apply two_digits_ESC_nat.
Qed.

(** The text of a gauge of 5 glyphs. *)
Lemma gauge_renders cfg c :
  tiers_ready cfg = true ->
  exists g plain,
    draw_bar cfg c 5 = Ok g /\ renders g plain /\
    List.length plain = 7%nat.
Proof.
  intros Hcfg. destruct (@get_color_total cfg c Hcfg) as [col Hcol].
  pose proof (@draw_bar_returns cfg c 5 col Hcol) as Hg.
  assert (Hf : (0 <= bar_filled c 5 <= 5)%Z) by (unfold bar_filled; lia).
  set (bar := times BLOCK (bar_filled c 5) ++ times DASH (5 - bar_filled c 5))
    in Hg.
  assert (Hbar : ~ In ESC bar).
  { intros H. apply in_app_or in H.
    destruct H as [H|H]; apply In_times in H; discriminate. }
  assert (Hlen : List.length bar = 5%nat).
  { unfold bar, times. rewrite List.length_app, !repeat_length. lia. }
  eexists. exists (lit "[" ++ [] ++ bar ++ [] ++ lit "]").
  split; [exact Hg|]. split.
  - apply renders_app; [apply renders_plain, plain_check; reflexivity|].
    apply renders_app;
      [apply renders_control, (COLORS_control (get_color_COLORS _ _ Hcol))|].
    apply renders_app; [now apply renders_plain|].
    apply renders_app; [apply renders_control, reset_control|].
    apply renders_plain, plain_check; reflexivity.
  - cbn [app]. rewrite !List.length_app, Hlen. reflexivity.
Qed.

Lemma core_half_renders pre label g pg pct :
  ~ In ESC pre -> ~ In ESC label -> List.length label = 2%nat ->
  renders g pg -> List.length pg = 7%nat ->
  ~ In ESC pct -> List.length pct = 3%nat ->
  exists plain,
    renders (pre ++ label ++ lit " " ++ g ++ lit " " ++ pct ++ lit "%") plain /\
    List.length plain = (List.length pre + 15)%nat.
Proof.
  intros Hpre Hl Hl2 Hg Hg7 Hp Hp3.
  exists (pre ++ label ++ lit " " ++ pg ++ lit " " ++ pct ++ lit "%").
  split.
  - repeat (apply renders_app;
            [first [ exact Hg
                   | now apply renders_plain
                   | apply renders_plain, plain_check; reflexivity ] |]).
    apply renders_plain, plain_check; reflexivity.
  - rewrite !List.length_app, Hl2, Hg7, Hp3. simpl. lia.
Qed.

Lemma core_row_renders cfg cores i :
  tiers_ready cfg = true ->
  Forall (fun c => 0 <= c /\ c <= 100) cores ->
  (i < List.length cores)%nat -> (i + 2 < 100)%nat ->
  exists row plain,
    core_row cfg cores i = Ok row /\ renders row plain /\
    (List.length plain <= 36)%nat.
Proof.
  intros Hcfg Hcores Hi Hlabel.
  assert (Hnth : forall j, (j < List.length cores)%nat ->
                           0 <= nth j cores 0 /\ nth j cores 0 <= 100).
  { intros j Hj. rewrite Forall_forall in Hcores.
    apply Hcores. now apply nth_In. }
  unfold core_row. cbv zeta.
  destruct (@gauge_renders cfg (nth i cores 0) Hcfg) as (g1 & p1 & Hg1 & Hr1 & H71).
  rewrite Hg1. cbn [bind].
  destruct (core_label_field (i := i + 1) ltac:(lia)) as [Hl1 Hlp1].
  destruct (Hnth i Hi) as [Hc0 Hc1].
  destruct (percent_field Hc0 Hc1) as [Hp3 Hpp].
  destruct (@core_half_renders (lit " #") _ g1 p1 _
              ltac:(apply plain_check; reflexivity) Hlp1 Hl1 Hr1 H71 Hpp Hp3)
    as (plain1 & Hrow1 & Hlen1).
  destruct (Nat.ltb_spec (i + 1) (List.length cores)) as [Hi2|Hi2].
  - destruct (@gauge_renders cfg (nth (i + 1) cores 0) Hcfg)
      as (g2 & p2 & Hg2 & Hr2 & H72).
    rewrite Hg2. cbn [bind].
    destruct (core_label_field (i := i + 2) ltac:(lia)) as [Hl2 Hlp2].
    destruct (Hnth (i + 1)%nat Hi2) as [Hd0 Hd1].
    destruct (percent_field Hd0 Hd1) as [Hq3 Hqp].
    destruct (@core_half_renders (lit "   #") _ g2 p2 _
                ltac:(apply plain_check; reflexivity) Hlp2 Hl2 Hr2 H72 Hqp Hq3)
      as (plain2 & Hrow2 & Hlen2).
    eexists. exists (plain1 ++ plain2). split; [reflexivity|]. split.
    + exact (renders_app Hrow1 Hrow2).
    + rewrite List.length_app, Hlen1, Hlen2. simpl. lia.
  - eexists. exists plain1. split; [reflexivity|]. split.
    + exact Hrow1.
    + rewrite Hlen1. simpl. lia.
Qed.

Lemma core_rows_from_aligned cfg cores :
  tiers_ready cfg = true ->
  Forall (fun c => 0 <= c /\ c <= 100) cores ->
  forall indices out,
  Forall (fun i => (i < List.length cores)%nat /\ (i + 2 < 100)%nat) indices ->
  exists rows,
    core_rows_from cfg cores indices out = Ok (out ++ rows) /\
    List.length rows = List.length indices /\
    Forall (fun line => visible_len line = (PADDING_LEFT + W)%Z) rows.
Proof.
  intros Hcfg Hcores. induction indices as [|i later IH]; intros out Hind.
  - exists []. rewrite app_nil_r. repeat split. constructor.
  - inversion Hind as [|? ? [Hi Hl] Hlater]; subst.
    destruct (@core_row_renders cfg cores i Hcfg Hcores Hi Hl)
      as (row & plain & Hrow & Hren & Hlen).
    cbn [core_rows_from]. rewrite Hrow. cbn [bind].
    destruct (IH (draw_row row (color "cyan") out) Hlater)
      as (rows & Hrun & Hn & Hw).
    exists ((times SPACE PADDING_LEFT ++ row_text row (color "cyan")) :: rows).
    split; [|split].
    + rewrite Hrun. unfold draw_row, pr, print.
      now rewrite <- app_assoc.
    + simpl. now rewrite Hn.
    + constructor; [|exact Hw].
      rewrite pr_line_width.
      rewrite (@row_text_width_renders row plain (color "cyan") Hren)
        by (apply COLORS_control, (assoc_In "cyan" COLORS); reflexivity).
      unfold len, W. lia.
Qed.

Lemma range2_spec n i :
  In i (range2 n) <-> (exists k, i = (2 * k)%nat /\ (2 * k < n)%nat).
Proof.
  unfold range2. rewrite in_map_iff. split.
  - intros (k & <- & Hk). apply in_seq in Hk. exists k. split; [reflexivity|].
    rewrite Nat.div2_div in Hk.
    pose proof (Nat.div_mod_eq (n + 1) 2).
    pose proof (Nat.mod_upper_bound (n + 1) 2). lia.
  - intros (k & -> & Hk). exists k. split; [reflexivity|].
    apply in_seq. rewrite Nat.div2_div.
    pose proof (Nat.div_mod_eq (n + 1) 2).
    pose proof (Nat.mod_upper_bound (n + 1) 2). lia.
Qed.



(* ================================================================== *)
(** * The pattern is unambiguous *)

(** X19.  No control sequence is the beginning of a longer one: two
    control sequences that start at the same place of a string are the
    same, so what [visible_len] removes does not depend on how the
    matcher tries its alternatives and repetitions. *)
Theorem control_sequence_prefix_free (u u' t t' : str) :
  control_sequence u -> control_sequence u' ->
  u ++ t = u' ++ t' -> u = u' /\ t = t'.
Proof.
  intros Hu Hu' E.
  apply control_sequence_shape in Hu, Hu'.
  pose proof (@bt_control_sequence str u t Some t Hu eq_refl) as H1.
  pose proof (@bt_control_sequence str u' t' Some t' Hu' eq_refl) as H2.
  rewrite E in H1. rewrite H1 in H2. injection H2 as Ht.
  subst t'. split; [|reflexivity]. now apply app_inv_tail in E.
Qed.

Lemma control_sequence_prefix_free_witness :
  color "red" = ESC :: lit "[31m" /\ lit "1m" = lit "1m".
Proof.
  apply (@control_sequence_prefix_free
           (color "red") (ESC :: lit "[31m") (lit "1m") (lit "1m")).
  - apply COLORS_control, (assoc_In "red" COLORS). reflexivity.
  - apply COLORS_control, (assoc_In "red" COLORS). reflexivity.
  - reflexivity.
Defined.
